(** * dataset_loaders.parallel_loader: the ThreadedDataset loader

    A shallow embedding of [src/dataset_loaders/parallel_loader.py] and the
    properties of its label mapping, sequence windowing, batch scheduling,
    constructor checks and stepping loop. *)

From stdpp Require Import gmap list strings sorting.
From Stdlib Require Import ZArith Lia.

Open Scope Z_scope.

(** ** Python values shared by the whole model *)

(** The exceptions the module raises or inspects.  [IOError], [StopIteration]
    and [QueueEmpty] are the ones [_step] catches by class; [SystemExit],
    [KeyboardInterrupt] and [GeneratorExit] derive from [BaseException] only. *)
Inductive PyExc : Type :=
| NotImplementedError (msg : string)
| NameError (msg : string)
| ValueError (msg : string)
| RuntimeError (msg : string)
| IndexError
| AttributeError (attr : string)
| StopIteration
| IOError (msg : string)
| QueueEmpty
| SystemExit
| KeyboardInterrupt
| GeneratorExit
| OtherException (cls : string).

(** [isinstance(e, IOError)] *)
Definition isinstance_IOError (e : PyExc) : bool :=
  match e with IOError _ => true | _ => false end.

(** [isinstance(e, Exception)]: everything but the three classes that
    derive from [BaseException] directly. *)
Definition isinstance_Exception (e : PyExc) : bool :=
  match e with
  | SystemExit | KeyboardInterrupt | GeneratorExit => false
  | _ => true
  end.

Definition isinstance_StopIteration (e : PyExc) : bool :=
  match e with StopIteration => true | _ => false end.

Definition isinstance_QueueEmpty (e : PyExc) : bool :=
  match e with QueueEmpty => true | _ => false end.

(** A computation that returns or raises. *)
Inductive result (A : Type) : Type :=
| Ok (a : A)
| Raise (e : PyExc).
Arguments Ok {A} a.
Arguments Raise {A} e.

Global Instance result_ret : MRet result := λ A a, Ok a.
Global Instance result_bind : MBind result := λ A B k r,
  match r with
  | Ok a => k a
  | Raise e => Raise e
  end.

Definition is_Ok {A} (r : result A) : Prop := ∃ a, r = Ok a.
Definition is_Raise {A} (r : result A) : Prop := ∃ e, r = Raise e.

(** [range(n)] *)
Definition py_range (n : Z) : list Z := seqZ 0 n.

(** [enumerate(l)] *)
Definition enumerate {A} (l : list A) : list (Z * A) :=
  imap (λ i x, (Z.of_nat i, x)) l.

(** [[x] * n]: empty when [n <= 0]. *)
Definition py_repeat {A} (x : A) (n : Z) : list A := replicate (Z.to_nat n) x.

(** ** Label mapping: [_get_mapping] *)

(** The class attributes the mapping reads; [None] is an attribute the
    implementing class does not define ([hasattr] is false). *)
Record ClassAttrs : Type := {
  non_void_nclasses : option Z;
  _void_labels : option (list Z);
  GTclasses : option (list Z)
}.

Definition getattr {A} (name : string) (o : option A) : result A :=
  match o with
  | Some a => Ok a
  | None => Raise (AttributeError name)
  end.


(** The iteration that yields the members in the order of [gt], which is
    ascending once [GTclasses.sort()] has run. *)
Definition set_difference_sorted (gt voids : list Z) : list Z :=
  remove_dups (filter (λ x, x ∉ voids) gt).

(** [{cl: i for i, cl in enumerate(order)}] *)
Definition dict_of_enumerate (order : list Z) : gmap Z Z :=
  foldl (λ m ic, <[ic.2 := ic.1]> m) ∅ (enumerate order).

(** [for l in self._void_labels: mapping[l] = self.non_void_nclasses];
    the attribute is read once per iteration. *)
Fixpoint assign_voids (nvc : option Z) (voids : list Z) (mapping : gmap Z Z)
  : result (gmap Z Z) :=
  match voids with
  | [] => Ok mapping
  | l :: rest =>
      n ← getattr "non_void_nclasses" nvc ;
      assign_voids nvc rest (<[l := n]> mapping)
  end.

(** One iteration of the loop of the [else] branch, on [(mapping, delta)]. *)
Definition mapping_loop_body (nvc : Z) (voids : list Z)
    (acc : gmap Z Z * Z) (i : Z) : gmap Z Z * Z :=
  if bool_decide (i ∈ voids)
  then (<[i := nvc]> acc.1, acc.2 + 1)
  else (<[i := i - acc.2]> acc.1, acc.2).

(** [_get_mapping], with [set_iter] the iteration order of the set
    difference on the [GTclasses] branch. *)
Definition _get_mapping (set_iter : list Z → list Z → list Z)
    (cls : ClassAttrs) : result (gmap Z Z) :=
  match GTclasses cls with
  | Some gt =>
      voids ← getattr "_void_labels" (_void_labels cls) ;
      assign_voids (non_void_nclasses cls) voids
        (dict_of_enumerate (set_iter (merge_sort Z.le gt) voids))
  | None =>
      nvc ← getattr "non_void_nclasses" (non_void_nclasses cls) ;
      voids ← getattr "_void_labels" (_void_labels cls) ;
      Ok (foldl (mapping_loop_body nvc voids) (∅, 0)
            (py_range (nvc + Z.of_nat (length voids)))).1
  end.

(** The walk of the mapping as the specification words it: labels in
    ascending order, a canonical counter that a void label leaves alone. *)
Fixpoint walk_labels (nvc : Z) (voids : list Z) (labels : list Z)
    (counter : Z) : gmap Z Z :=
  match labels with
  | [] => ∅
  | l :: rest =>
      if bool_decide (l ∈ voids)
      then <[l := nvc]> (walk_labels nvc voids rest counter)
      else <[l := counter]> (walk_labels nvc voids rest (counter + 1))
  end.

Definition implicit_attrs (nvc : Z) (voids : list Z) : ClassAttrs :=
  {| non_void_nclasses := Some nvc; _void_labels := Some voids;
     GTclasses := None |}.

Definition explicit_attrs (nvc : Z) (voids gt : list Z) : ClassAttrs :=
  {| non_void_nclasses := Some nvc; _void_labels := Some voids;
     GTclasses := Some gt |}.

(** ** Sequence windowing: [_fill_names_sequences] *)

(** A name is tagged with the prefix of its subset; a window is a run of
    such names. *)
Definition window : Type := list (string * string).

(** [l[i]] for [i = 0] and [i = -1], the two subscripts the module uses. *)
Definition py_first {A} (l : list A) : result A :=
  match l with
  | [] => Raise IndexError
  | x :: _ => Ok x
  end.

Definition py_last {A} (l : list A) : result A :=
  match last l with
  | None => Raise IndexError
  | Some x => Ok x
  end.

(** Every [step]-th element, the first one after [skip] elements. *)
Fixpoint stride_from {A} (step skip : nat) (l : list A) : list A :=
  match l with
  | [] => []
  | x :: rest =>
      match skip with
      | O => x :: stride_from step (step - 1) rest
      | S k => stride_from step k rest
      end
  end.

(** [l[::step]]: a zero step raises, a negative one walks back from the
    last element. *)
Definition py_slice_step {A} (l : list A) (step : Z) : result (list A) :=
  if bool_decide (step = 0) then Raise (ValueError "slice step cannot be zero")
  else if bool_decide (0 < step) then Ok (stride_from (Z.to_nat step) 0 l)
  else Ok (stride_from (Z.to_nat (- step)) 0 (reverse l)).

(** [l[:k]]: a negative [k] drops the last [-k] elements. *)
Definition py_slice_to {A} (l : list A) (k : Z) : list A :=
  if bool_decide (0 ≤ k) then take (Z.to_nat k) l
  else take (length l - Z.to_nat (- k)) l.

(** Modelled from the spec: [overlap_grouper] of [utils_parallel_loader],
    which this module imports and the sources do not hold.  A window of
    exactly [n] consecutive names at every start offset of [iterable], stride
    1, each name paired with [prefix]; the specification speaks of windows
    for [n >= 1] only, and none is produced otherwise. *)
Fixpoint overlap_grouper (iterable : list string) (n : Z) (prefix : string)
  : list window :=
  match iterable with
  | [] => []
  | _ :: rest =>
      if bool_decide (1 ≤ n ≤ Z.of_nat (length iterable))
      then (pair prefix <$> take (Z.to_nat n) iterable)
             :: overlap_grouper rest n prefix
      else []
  end.

(** The names of a subset with the first and the last one repeated
    [seq_length // 2] times. *)
Definition extended_names (seq_length : Z) (names : list string)
  : result (list string) :=
  first ← py_first names ;
  last ← py_last names ;
  Ok (py_repeat first (seq_length `div` 2) ++ names
        ++ py_repeat last (seq_length `div` 2)).

(** The sequences of a subset with overlap [seq_length - 1], that is,
    stride 1. *)
Definition stride1_sequences (seq_length : Z) (prefix : string)
    (names : list string) : result (list window) :=
  extended ← extended_names seq_length names ;
  Ok (overlap_grouper extended seq_length prefix).

(** The body of the loop of [_fill_names_sequences] for one subset: the
    sequences of frames with the requested overlap. *)
Definition subset_sequences (seq_length overlap : Z) (prefix : string)
    (names : list string) : result (list window) :=
  sequences ← stride1_sequences seq_length prefix names ;
  py_slice_step sequences (seq_length - overlap).

(** [_fill_names_sequences]: dictionaries are association lists in their
    iteration order. *)
Fixpoint _fill_names_sequences (seq_length overlap : Z)
    (names_per_subset : list (string * list string))
  : result (list (string * list window)) :=
  match names_per_subset with
  | [] => Ok []
  | (prefix, names) :: rest =>
      sequences ← subset_sequences seq_length overlap prefix names ;
      others ← _fill_names_sequences seq_length overlap rest ;
      Ok ((prefix, sequences) :: others)
  end.

(** ** Batch scheduling: [_fill_names_batches] *)

(** A batch of names: up to [batch_size] windows, the last batch of an epoch
    filled up with absent entries. *)
Definition index_group : Type := list (option window).

(** The two random sources.  [np_random_permutation c n] is what the [c]-th
    call of [np.random.permutation(range(n))] returns, [rng_shuffle c l] what
    the [c]-th call of [self.rng.shuffle] leaves in [l]. *)
Record RandomSources : Type := {
  np_random_permutation : nat → nat → list nat;
  rng_shuffle : nat → list window → list window
}.

Definition valid_random (rnd : RandomSources) : Prop :=
  (∀ c n, np_random_permutation rnd c n ≡ₚ seq 0 n)
  ∧ (∀ c l, rng_shuffle rnd c l ≡ₚ l).

(** The sources that leave every order as it is. *)
Definition identity_random : RandomSources :=
  {| np_random_permutation := λ _ n, seq 0 n; rng_shuffle := λ _ l, l |}.

(** [np.array(sequences)[idx]] *)
Fixpoint py_take_indices {A} (l : list A) (idx : list nat) : result (list A) :=
  match idx with
  | [] => Ok []
  | i :: rest =>
      match l !! i with
      | None => Raise IndexError
      | Some x => others ← py_take_indices l rest ; Ok (x :: others)
      end
  end.

(** The first loop of [_fill_names_batches], from the [calls]-th draw of
    [np.random] on: the selected windows of every subset and the flat list
    they extend. *)
Fixpoint select_sequences (rnd : RandomSources) (seq_per_video : Z)
    (calls : nat) (names_sequences : list (string * list window))
  : result (list (list window) * nat) :=
  match names_sequences with
  | [] => Ok ([], calls)
  | (prefix, sequences) :: rest =>
      if bool_decide (seq_per_video ≠ 0) then
        let idx := py_slice_to
          (np_random_permutation rnd calls (length sequences)) seq_per_video in
        chosen ← py_take_indices sequences idx ;
        others ← select_sequences rnd seq_per_video (S calls) rest ;
        Ok (chosen :: others.1, others.2)
      else
        others ← select_sequences rnd seq_per_video calls rest ;
        Ok (sequences :: others.1, others.2)
  end.

(** Modelled from the spec: [grouper] of [utils_parallel_loader], which this
    module imports and the sources do not hold.  Consecutive groups of [n]
    entries; the final group is filled up with absent entries, which
    [fetch_from_dataset] skips. *)
Fixpoint grouper_loop {A} (fuel : nat) (l : list A) (n : nat)
  : list (list (option A)) :=
  match fuel with
  | O => []
  | S fuel' =>
      match l with
      | [] => []
      | _ => ((Some <$> take n l) ++ replicate (n - length l) None)
               :: grouper_loop fuel' (drop n l) n
      end
  end.

Definition grouper {A} (l : list A) (n : Z) : list (list (option A)) :=
  if bool_decide (1 ≤ n) then grouper_loop (length l) l (Z.to_nat n) else [].

(** The windows of a group, absent entries left out. *)
Definition group_windows (g : index_group) : list window := omap id g.

(** What [select_sequences] may pick from the [sequences] of one subset:
    all of them without a cap, else a selection without replacement of
    [min(seq_per_video, len(sequences))] of them. *)
Definition pick_ok (seq_per_video : Z) (sequences pick : list window) : Prop :=
  if bool_decide (seq_per_video = 0) then pick = sequences
  else length pick = length (py_slice_to sequences seq_per_video)
       ∧ pick ⊆+ sequences
       ∧ (Z.of_nat (length sequences) ≤ seq_per_video → pick ≡ₚ sequences).



(** The parameters [__init__] saves in the object. *)
Record Params : Type := {
  seq_per_video : Z;
  seq_length : Z;
  overlap : Z;
  batch_size : Z;
  queues_size : Z;
  use_threads : bool;
  nthreads : Z;
  shuffle_at_each_epoch : bool;
  infinite_iterator : bool;
  return_sequence : bool
}.

(** The scheduling state of the object; [names_batches] is the iterator,
    held as the batches it has yet to yield. *)
Record Epoch : Type := {
  names_sequences : list (string * list window);
  nsamples : nat;
  nbatches : nat;
  names_batches : list index_group;
  np_calls : nat;
  rng_calls : nat
}.

Definition _fill_names_batches (rnd : RandomSources) (p : Params)
    (ep : Epoch) (shuffle : bool) : result Epoch :=
  selected ← select_sequences rnd (seq_per_video p) (np_calls ep)
                (names_sequences ep) ;
  let flat := concat selected.1 in
  let flat' := if shuffle then rng_shuffle rnd (rng_calls ep) flat else flat in
  let batches := grouper flat' (batch_size p) in
  Ok {| names_sequences := names_sequences ep;
        nsamples := length flat';
        nbatches := length batches;
        names_batches := batches;
        np_calls := selected.2;
        rng_calls := if shuffle then S (rng_calls ep) else rng_calls ep |}.

(** The object before the first call of [_fill_names_batches]. *)
Definition unfilled_epoch (sequences : list (string * list window)) : Epoch :=
  {| names_sequences := sequences; nsamples := 0; nbatches := 0;
     names_batches := []; np_calls := 0; rng_calls := 0 |}.

(** [self.names_batches.next()] *)
Definition names_batches_next (ep : Epoch) : result index_group * Epoch :=
  match names_batches ep with
  | [] => (Raise StopIteration, ep)
  | b :: rest =>
      (Ok b, {| names_sequences := names_sequences ep;
                nsamples := nsamples ep;
                nbatches := nbatches ep;
                names_batches := rest;
                np_calls := np_calls ep;
                rng_calls := rng_calls ep |})
  end.

Definition ceil_div (n b : Z) : Z := (n + b - 1) `div` b.

(** ** Fetching and stepping: [fetch_from_dataset], [threaded_fetch], [_step] *)

(** What travels through the data queue: a minibatch, or the
    [sys.exc_info()] triple a fetcher captured (the only item of length 3). *)
Inductive data_item (Sample : Type) : Type :=
| DataBatch (d : list Sample)
| ExcInfo (e : PyExc).
Arguments DataBatch {Sample} d.
Arguments ExcInfo {Sample} e.

(** What travels through the names queue. *)
Inductive names_item : Type :=
| NamesBatch (b : index_group)
| Sentinel.

(** The two queues and the fetcher threads.  [names_unfinished] is
    [names_queue.unfinished_tasks]; [fetchers_alive] holds [isAlive()] of
    each fetcher. *)
Record Queues (Sample : Type) : Type := {
  names_queue : list names_item;
  names_unfinished : nat;
  data_queue : list (data_item Sample);
  fetchers_alive : list bool
}.
Arguments names_queue {Sample} q.
Arguments names_unfinished {Sample} q.
Arguments data_queue {Sample} q.
Arguments fetchers_alive {Sample} q.

(** How one pass through the body of the loop of [_step] ends. *)
Inductive iter_outcome (Sample : Type) : Type :=
| Done (data_batch : data_item Sample)
| Continue
| Raised (e : PyExc).
Arguments Done {Sample} data_batch.
Arguments Continue {Sample}.
Arguments Raised {Sample} e.

Section Stepping.
Context {Sample : Type}.
(** [load_sequence] followed by the transformations of the loop body of
    [fetch_from_dataset], for one element of the batch. *)
Variable load_sequence : window → result Sample.
Variable rnd : RandomSources.
Variable p : Params.

(** [fetch_from_dataset]: absent entries are skipped, the first failure
    leaves the loop. *)
Fixpoint fetch_from_dataset (batch_to_load : index_group)
  : result (list Sample) :=
  match batch_to_load with
  | [] => Ok []
  | None :: rest => fetch_from_dataset rest
  | Some el :: rest =>
      ret ← load_sequence el ;
      others ← fetch_from_dataset rest ;
      Ok (ret :: others)
  end.

(** [names_queue.put(name_batch)] *)
Definition names_queue_put (q : Queues Sample) (b : index_group)
  : Queues Sample :=
  {| names_queue := names_queue q ++ [NamesBatch b];
     names_unfinished := S (names_unfinished q);
     data_queue := data_queue q;
     fetchers_alive := fetchers_alive q |}.

(** [_init_names_queue]: up to [n] batches move to the names queue. *)
Fixpoint init_names_queue_loop (n : nat) (ep : Epoch) (q : Queues Sample)
  : Epoch * Queues Sample :=
  match n with
  | O => (ep, q)
  | S n' =>
      match names_batches_next ep with
      | (Ok name_batch, ep') =>
          init_names_queue_loop n' ep' (names_queue_put q name_batch)
      | (Raise _, ep') => (ep', q)
      end
  end.

Definition _init_names_queue (ep : Epoch) (q : Queues Sample)
  : Epoch * Queues Sample :=
  init_names_queue_loop (Z.to_nat (queues_size p)) ep q.

(** One pass through the loop of [threaded_fetch], run by fetcher [w], as
    one atomic move: [None] while [names_queue.get()] blocks or the thread
    is gone.  Whatever the fetch raises goes to the data queue and the
    loop goes on; only the sentinel ends the thread. *)
Definition threaded_fetch_iter (w : nat) (q : Queues Sample)
  : option (Queues Sample) :=
  match fetchers_alive q !! w, names_queue q with
  | Some true, Sentinel :: rest =>
      Some {| names_queue := rest;
              names_unfinished := pred (names_unfinished q);
              data_queue := data_queue q;
              fetchers_alive := <[w := false]> (fetchers_alive q) |}
  | Some true, NamesBatch batch_to_load :: rest =>
      let item := match fetch_from_dataset batch_to_load with
                  | Ok minibatch_data => DataBatch minibatch_data
                  | Raise e => ExcInfo e
                  end in
      Some {| names_queue := rest;
              names_unfinished := pred (names_unfinished q);
              data_queue := data_queue q ++ [item];
              fetchers_alive := fetchers_alive q |}
  | _, _ => None
  end.

(** The fetchers named by [ws] move in turn; one that cannot move is
    passed over. *)
Definition run_fetchers (ws : list nat) (q : Queues Sample) : Queues Sample :=
  foldl (λ q w, default q (threaded_fetch_iter w q)) q ws.

(** END OF EPOCH of the loop without threads. *)
Definition end_of_epoch_sync (ep : Epoch) : iter_outcome Sample * Epoch :=
  match _fill_names_batches rnd p ep (shuffle_at_each_epoch p) with
  | Raise e => (Raised e, ep)
  | Ok ep' =>
      if infinite_iterator p then (Continue, ep')
      else (Raised StopIteration, ep')
  end.

(** One pass through the loop of [_step], NO THREADS. *)
Definition step_sync_iter (ep : Epoch) : iter_outcome Sample * Epoch :=
  match names_batches_next ep with
  | (Raise _, ep1) => end_of_epoch_sync ep1
  | (Ok name_batch, ep1) =>
      match fetch_from_dataset name_batch with
      | Ok data_batch => (Done (DataBatch data_batch), ep1)
      | Raise e =>
          if isinstance_StopIteration e then end_of_epoch_sync ep1
          else if isinstance_IOError e then (Continue, ep1)
          else (Raised e, ep1)
      end
  end.

(** The [except Queue.Empty] handler of the loop with threads. *)
Definition on_queue_empty (st : Epoch * Queues Sample)
  : iter_outcome Sample * (Epoch * Queues Sample) :=
  if bool_decide (names_unfinished st.2 = O) then
    match _fill_names_batches rnd p st.1 (shuffle_at_each_epoch p) with
    | Raise e => (Raised e, st)
    | Ok ep' =>
        let st' := _init_names_queue ep' st.2 in
        if infinite_iterator p then (Continue, st')
        else (Raised StopIteration, st')
    end
  else (Continue, st).

(** [done = True] and the refill of the names queue. *)
Definition deliver (data_batch : data_item Sample)
    (st : Epoch * Queues Sample)
  : iter_outcome Sample * (Epoch * Queues Sample) :=
  match names_batches_next st.1 with
  | (Ok name_batch, ep') => (Done data_batch, (ep', names_queue_put st.2 name_batch))
  | (Raise _, ep') => (Done data_batch, (ep', st.2))
  end.

(** One pass through the loop of [_step], THREADS. *)
Definition step_threaded_iter (st : Epoch * Queues Sample)
  : iter_outcome Sample * (Epoch * Queues Sample) :=
  if forallb negb (fetchers_alive st.2) then (Raised SystemExit, st)
  else
    match data_queue st.2 with
    | [] => on_queue_empty st
    | data_batch :: rest =>
        let st1 := (st.1, {| names_queue := names_queue st.2;
                             names_unfinished := names_unfinished st.2;
                             data_queue := rest;
                             fetchers_alive := fetchers_alive st.2 |}) in
        match data_batch with
        | ExcInfo e =>
            if isinstance_IOError e then (Continue, st1)
            else if isinstance_Exception e then
              if isinstance_QueueEmpty e then on_queue_empty st1
              else (Raised e, st1)
            else deliver data_batch st1
        | DataBatch _ => deliver data_batch st1
        end
    end.

(** [_step]: the loop runs one pass per entry of [sched], the fetchers
    of the entry moving before the pass; [None] when the passes of
    [sched] all ended in [Continue]. *)
Fixpoint _step (sched : list (list nat)) (st : Epoch * Queues Sample)
  : option (result (data_item Sample) * (Epoch * Queues Sample)) :=
  match sched with
  | [] => None
  | ws :: sched' =>
      let '(out, st') :=
        if use_threads p
        then step_threaded_iter (st.1, run_fetchers ws st.2)
        else let '(o, ep') := step_sync_iter st.1 in (o, (ep', st.2)) in
      match out with
      | Done data_batch => Some (Ok data_batch, st')
      | Raised e => Some (Raise e, st')
      | Continue => _step sched' st'
      end
  end.
End Stepping.

(** ** Construction: [__init__] *)

(** The keyword arguments of [__init__] that the checks and the scheduling
    read. *)
Module Args.
(** [data_augm_kwargs['crop_size']] as the caller gives it. *)
Inductive crop_size : Type :=
| CropNone
| CropInt (c : Z)
| CropPair (c0 c1 : Z).

Record t : Type := {
  seq_per_video : Z;
  seq_length : Z;
  overlap : option Z;
  batch_size : Z;
  queues_size : Z;
  use_threads : bool;
  nthreads : Z;
  shuffle_at_each_epoch : bool;
  infinite_iterator : bool;
  crop : crop_size
}.
End Args.

(** The implementing class: its attributes ([None] when it defines none of
    that name) and what its [get_names] returns. *)
Record DatasetClass : Type := {
  name : option string;
  debug_shape : option (list Z);
  path : option string;
  sharedpath : option string;
  data_shape : option (list (option Z));
  labels : ClassAttrs;
  get_names : result (list (string * list string))
}.

Definition hasattr {A} (o : option A) : bool :=
  match o with Some _ => true | None => false end.

(** crop_size in canonical form: a pair, or [None] for [0, 0]. *)
Definition canonical_crop_size (cs : Args.crop_size) : option (Z * Z) :=
  match cs with
  | Args.CropNone => None
  | Args.CropInt c => if bool_decide (c = 0) then None else Some (c, c)
  | Args.CropPair c0 c1 =>
      if bool_decide (c0 = 0 ∧ c1 = 0) then None else Some (c0, c1)
  end.

(** Do not support multithread without shuffling. *)
Definition check_threads (a : Args.t) : result unit :=
  if Args.use_threads a && bool_decide (1 < Args.nthreads a)
       && negb (Args.shuffle_at_each_epoch a)
  then Raise (NotImplementedError "Multiple threads are not order preserving")
  else Ok ().

Definition missing_attrs (cls : DatasetClass) : list string :=
  (if hasattr (name cls) then [] else ["name"])
  ++ (if hasattr (non_void_nclasses (labels cls)) then []
      else ["non_void_nclasses"])
  ++ (if hasattr (debug_shape cls) then [] else ["debug_shape"])
  ++ (if hasattr (_void_labels (labels cls)) then [] else ["_void_labels"])
  ++ (if hasattr (path cls) then [] else ["path"])
  ++ (if hasattr (sharedpath cls) then [] else ["sharedpath"]).

Definition check_mandatory (cls : DatasetClass) : result unit :=
  if bool_decide (missing_attrs cls ≠ [])
  then Raise (NameError "Mandatory argument(s) missing")
  else Ok ().

(** If variable sized dataset: either batch_size 1 or crop. *)
Definition check_data_shape (cls : DatasetClass) (a : Args.t) : result unit :=
  if negb (hasattr (data_shape cls)) && bool_decide (1 < Args.batch_size a)
       && negb (hasattr (canonical_crop_size (Args.crop a)))
  then Raise (ValueError "set batch_size = 1 or specify a crop_size")
  else Ok ().

(** [if seq_length and overlap and overlap >= seq_length: raise ValueError] *)
Definition check_overlap (a : Args.t) : result unit :=
  match Args.overlap a with
  | Some o =>
      if bool_decide (Args.seq_length a ≠ 0) && bool_decide (o ≠ 0)
           && bool_decide (Args.seq_length a ≤ o)
      then Raise (ValueError "`overlap` should be smaller than `seq_length`")
      else Ok ()
  | None => Ok ()
  end.

(** Save parameters in object. *)
Definition save_params (a : Args.t) : Params :=
  let seq_length :=
    if bool_decide (Args.seq_length a ≠ 0) then Args.seq_length a else 1 in
  {| seq_per_video := Args.seq_per_video a;
     return_sequence := bool_decide (Args.seq_length a ≠ 0);
     seq_length := seq_length;
     overlap := default (seq_length - 1) (Args.overlap a);
     batch_size := Args.batch_size a;
     queues_size := Args.queues_size a;
     use_threads := Args.use_threads a;
     nthreads := Args.nthreads a;
     shuffle_at_each_epoch := Args.shuffle_at_each_epoch a;
     infinite_iterator := Args.infinite_iterator a |}.

(** The object [__init__] leaves behind. *)
Record ThreadedDataset (Sample : Type) : Type := {
  params : Params;
  epoch : Epoch;
  queues : option (Queues Sample)
}.
Arguments params {Sample} t.
Arguments epoch {Sample} t.
Arguments queues {Sample} t.

(** What [__init__] does once the thread check has passed.  The creation of
    the [datasets] directory and the copy of the data touch the file system
    only and are not part of the model. *)
Definition init_after_thread_check (Sample : Type) (rnd : RandomSources)
    (cls : DatasetClass) (a : Args.t) : result (ThreadedDataset Sample) :=
  _ ← check_mandatory cls ;
  _ ← check_data_shape cls a ;
  _ ← check_overlap a ;
  let p := save_params a in
  names_per_subset ← get_names cls ;
  sequences ← _fill_names_sequences (seq_length p) (overlap p)
                 names_per_subset ;
  if bool_decide (length sequences = O)
  then Raise (RuntimeError "The name list cannot be empty")
  else
    ep ← _fill_names_batches rnd p (unfilled_epoch sequences)
           (shuffle_at_each_epoch p) ;
    if use_threads p then
      let st := _init_names_queue p ep
        {| names_queue := []; names_unfinished := 0; data_queue := [];
           fetchers_alive := replicate (Z.to_nat (nthreads p)) true |} in
      Ok {| params := p; epoch := st.1; queues := Some st.2 |}
    else Ok {| params := p; epoch := ep; queues := None |}.

Definition __init__ (Sample : Type) (rnd : RandomSources)
    (cls : DatasetClass) (a : Args.t) : result (ThreadedDataset Sample) :=
  _ ← check_threads a ;
  init_after_thread_check Sample rnd cls a.

(** *** Test data *)

Definition camvid_like (nvc : Z) (voids : list Z)
    (names : list (string * list string)) : DatasetClass :=
  {| name := Some "camvid"; debug_shape := Some [360; 480; 3];
     path := Some "datasets/camvid"; sharedpath := Some "/data/camvid";
     data_shape := Some [Some 360; Some 480; Some 3];
     labels := implicit_attrs nvc voids;
     get_names := Ok names |}.

Definition default_args : Args.t :=
  {| Args.seq_per_video := 0; Args.seq_length := 0; Args.overlap := None;
     Args.batch_size := 1; Args.queues_size := 50; Args.use_threads := false;
     Args.nthreads := 1; Args.shuffle_at_each_epoch := true;
     Args.infinite_iterator := true; Args.crop := Args.CropNone |}.

Definition five_frames : list string := ["f0"; "f1"; "f2"; "f3"; "f4"].

(** The class [cls] with [non_void_nclasses] set to [n]. *)
Definition with_non_void_nclasses (cls : DatasetClass) (n : Z) : DatasetClass :=
  {| name := name cls; debug_shape := debug_shape cls; path := path cls;
     sharedpath := sharedpath cls; data_shape := data_shape cls;
     labels := {| non_void_nclasses := Some n;
                  _void_labels := _void_labels (labels cls);
                  GTclasses := GTclasses (labels cls) |};
     get_names := get_names cls |}.

Definition ten_frames : list string :=
  ["f0"; "f1"; "f2"; "f3"; "f4"; "f5"; "f6"; "f7"; "f8"; "f9"].

(** Ten windows of one frame each, in one subset. *)
Definition ten_windows : list (string * list window) :=
  [("A", (λ f, [("A", f)]) <$> ten_frames)].

(** Two subsets, of three and of five windows of one frame each. *)
Definition two_subsets : list (string * list window) :=
  [("A", (λ f, [("A", f)]) <$> ["a0"; "a1"; "a2"]);
   ("B", (λ f, [("B", f)]) <$> five_frames)].

Definition args_batch_size_4 : Args.t :=
  {| Args.seq_per_video := 0; Args.seq_length := 0; Args.overlap := None;
     Args.batch_size := 4; Args.queues_size := 50; Args.use_threads := false;
     Args.nthreads := 1; Args.shuffle_at_each_epoch := false;
     Args.infinite_iterator := true; Args.crop := Args.CropNone |}.


Definition args_negative_overlap : Args.t :=
  {| Args.seq_per_video := 0; Args.seq_length := 3; Args.overlap := Some (-1);
     Args.batch_size := 1; Args.queues_size := 50; Args.use_threads := false;
     Args.nthreads := 1; Args.shuffle_at_each_epoch := true;
     Args.infinite_iterator := true; Args.crop := Args.CropNone |}.

Definition args_overlap_3_of_3 : Args.t :=
  {| Args.seq_per_video := 0; Args.seq_length := 3; Args.overlap := Some 3;
     Args.batch_size := 1; Args.queues_size := 50; Args.use_threads := false;
     Args.nthreads := 1; Args.shuffle_at_each_epoch := true;
     Args.infinite_iterator := true; Args.crop := Args.CropNone |}.





(** A loader without threads that stops at the end of each epoch. *)
Definition finite_params : Params :=
  {| seq_per_video := 0; seq_length := 1; overlap := 0; batch_size := 4;
     queues_size := 50; use_threads := false; nthreads := 1;
     shuffle_at_each_epoch := false; infinite_iterator := false;
     return_sequence := false |}.

Definition no_queues : Queues unit :=
  {| names_queue := []; names_unfinished := 0; data_queue := [];
     fetchers_alive := [] |}.


(** ** Label mapping: class counts, relabelling and inverse mapping *)

(** [nclasses]: the number of classes in the output mask. *)
Definition nclasses (cls : ClassAttrs) : result Z :=
  match _void_labels cls with
  | Some (_ :: _) =>
      n ← getattr "non_void_nclasses" (non_void_nclasses cls) ; Ok (n + 1)
  | _ => getattr "non_void_nclasses" (non_void_nclasses cls)
  end.

(** [get_void_labels]: the label all void labels are mapped to, if any. *)
Definition get_void_labels (cls : ClassAttrs) : result (list Z) :=
  match _void_labels cls with
  | Some (_ :: _) =>
      n ← getattr "non_void_nclasses" (non_void_nclasses cls) ; Ok [n]
  | _ => Ok []
  end.

(** The labels of [range(nvc + len(voids))] that are not void. *)
Definition non_void_labels (nvc : Z) (voids : list Z) : list Z :=
  filter (λ l, l ∉ voids) (py_range (nvc + Z.of_nat (length voids))).

(** [KeyError], raised by a subscript on a dictionary. *)
Definition KeyError : PyExc := OtherException "KeyError".


(** [sorted(mapping.keys())] *)
Definition sorted_keys {V} (mapping : gmap Z V) : list Z :=
  merge_sort Z.le (elements (dom mapping)).







(** [{v: k for k, v in items}], with [items] the pairs of [mapping.items()]
    in the order of iteration. *)
Definition dict_inverse (items : list (Z * Z)) : gmap Z Z :=
  foldl (λ inv kv, <[kv.2 := kv.1]> inv) ∅ items.

(** An order in which Python may iterate [mapping.items()]. *)
Definition items_iter (mapping : gmap Z Z) (items : list (Z * Z)) : Prop :=
  items ≡ₚ map_to_list mapping.

(** [_get_inv_mapping], with [dict_iter] the iteration order of the items
    of the mapping. *)
Definition _get_inv_mapping (set_iter : list Z → list Z → list Z)
    (dict_iter : gmap Z Z → list (Z * Z)) (cls : ClassAttrs)
  : result (gmap Z Z) :=
  mapping ← _get_mapping set_iter cls ;
  Ok (dict_inverse (dict_iter mapping)).

(** [d[k]] on a dictionary. *)
Definition dict_getitem {V} (d : gmap Z V) (k : Z) : result V :=
  match d !! k with
  | Some v => Ok v
  | None => Raise KeyError
  end.

(** [[f(k) for k in l]], left to right. *)
Fixpoint list_comprehension {A B} (f : A → result B) (l : list A)
  : result (list B) :=
  match l with
  | [] => Ok []
  | x :: rest =>
      y ← f x ; ys ← list_comprehension f rest ; Ok (y :: ys)
  end.

(** [get_mask_labels]; [mask_labels] is the attribute [_mask_labels]. *)
Definition get_mask_labels (set_iter : list Z → list Z → list Z)
    (dict_iter : gmap Z Z → list (Z * Z)) (cls : ClassAttrs)
    (mask_labels : option (gmap Z string)) : result (list string) :=
  let mask_labels := default ∅ mask_labels in
  if bool_decide (mask_labels = ∅) then Ok []
  else
    inv_mapping ← _get_inv_mapping set_iter dict_iter cls ;
    list_comprehension
      (λ k, orig ← dict_getitem inv_mapping k ; dict_getitem mask_labels orig)
      (sorted_keys inv_mapping).


(** The mapping of the class docstring for [GTclasses]. *)
Definition docstring_mapping : gmap Z Z :=
  list_to_map [(0, 0); (2, 5); (5, 1); (9, 2); (11, 3); (12, 4); (99, 5)].

(** Names for the original labels of [docstring_mapping]. *)
Definition docstring_mask_labels : gmap Z string :=
  list_to_map [(0, "sky"); (2, "void"); (5, "road"); (9, "car");
               (11, "tree"); (12, "sign"); (99, "unlabelled")].

(** ** Sequence windowing: positions *)

(** The index of [range(n)] nearest to [t]. *)
Definition clamp_index (n : nat) (t : Z) : nat :=
  Z.to_nat (Z.max 0 (Z.min t (Z.of_nat n - 1))).


(** ** Batch scheduling and stepping: counts and drivers *)


(** What a fetcher puts on the data queue for one batch of names. *)
Definition fetched_item {Sample} (load_sequence : window → result Sample)
    (batch_to_load : index_group) : data_item Sample :=
  match fetch_from_dataset load_sequence batch_to_load with
  | Ok minibatch_data => DataBatch minibatch_data
  | Raise e => ExcInfo e
  end.


(** The first loop of [finish]: one sentinel per fetcher on the names
    queue. *)
Definition finish_put_sentinels {Sample} (q : Queues Sample) : Queues Sample :=
  {| names_queue :=
       names_queue q ++ replicate (length (fetchers_alive q)) Sentinel;
     names_unfinished := names_unfinished q + length (fetchers_alive q);
     data_queue := data_queue q;
     fetchers_alive := fetchers_alive q |}.

(** The fetchers that are alive, and the sentinels on the names queue. *)
Definition count_alive {Sample} (q : Queues Sample) : nat :=
  sum_list ((λ alive : bool, if alive then 1%nat else 0%nat)
              <$> fetchers_alive q).

Definition count_sentinels {Sample} (q : Queues Sample) : nat :=
  sum_list ((λ item, match item with Sentinel => 1%nat | _ => 0%nat end)
              <$> names_queue q).

(** A [load_sequence] for which the frame [f0] is missing. *)
Definition load_missing_f0 : window → result unit := λ w,
  match w with
  | [(_, name)] =>
      if String.eqb name "f0" then Raise (IOError "missing") else Ok ()
  | _ => Ok ()
  end.

(** * Properties *)

(** ** Label mapping *)

Lemma walk_labels_lookup_None nvc voids labels counter k :
  k ∉ labels → walk_labels nvc voids labels counter !! k = None.
Proof.
  revert counter. induction labels as [|l rest IH]; intros counter Hk; simpl.
  - apply lookup_empty.
  - apply not_elem_of_cons in Hk as [Hne Hrest].
    case_bool_decide; rewrite lookup_insert_ne by done; by apply IH.
Qed.

Lemma mapping_loop_walk nvc voids n a delta (m : gmap Z Z) :
  (∀ k, a ≤ k → m !! k = None) →
  (foldl (mapping_loop_body nvc voids) (m, delta) (seqZ a (Z.of_nat n))).1
  = walk_labels nvc voids (seqZ a (Z.of_nat n)) (a - delta) ∪ m.
Proof.
  revert a delta m. induction n as [|n IH]; intros a delta m Hm.
  - simpl. by rewrite (left_id_L ∅ (∪)).
  - rewrite seqZ_cons by lia.
    replace (Z.pred (Z.of_nat (S n))) with (Z.of_nat n) by lia.
    simpl. unfold mapping_loop_body at 2. simpl.
    assert (Hfresh : ∀ c, walk_labels nvc voids (seqZ (Z.succ a) (Z.of_nat n)) c
                          !! a = None).
    { intros c. apply walk_labels_lookup_None.
      rewrite elem_of_seqZ. lia. }
    case_bool_decide.
    + rewrite IH.
      * replace (Z.succ a - (delta + 1)) with (a - delta) by lia.
        rewrite <- insert_union_r by apply Hfresh.
        by rewrite insert_union_l.
      * intros k Hk. rewrite lookup_insert_ne by lia. apply Hm. lia.
    + rewrite IH.
      * replace (Z.succ a - delta) with (a - delta + 1) by lia.
        rewrite <- insert_union_r by apply Hfresh.
        by rewrite insert_union_l.
      * intros k Hk. rewrite lookup_insert_ne by lia. apply Hm. lia.
Qed.

Lemma walk_labels_counter nvc voids labels counter l v :
  walk_labels nvc voids labels counter !! l = Some v →
  l ∈ labels ∧ (l ∈ voids → v = nvc)
  ∧ (l ∉ voids → counter ≤ v < counter + Z.of_nat (length labels)).
Proof.
  revert counter. induction labels as [|x rest IH]; intros counter; simpl.
  - by rewrite lookup_empty.
  - case_bool_decide as Hx.
    + destruct (decide (x = l)) as [->|Hne].
      * rewrite lookup_insert_eq. intros [= <-].
        split; [left|]. done.
      * rewrite lookup_insert_ne by done. intros Hl.
        destruct (IH _ Hl) as (? & ? & Hc).
        split; [by right|]. split; [done|]. intros Hv. specialize (Hc Hv). lia.
    + destruct (decide (x = l)) as [->|Hne].
      * rewrite lookup_insert_eq. intros [= <-].
        split; [left|]. split; [done|]. lia.
      * rewrite lookup_insert_ne by done. intros Hl.
        destruct (IH _ Hl) as (? & ? & Hc).
        split; [by right|]. split; [done|]. intros Hv. specialize (Hc Hv). lia.
Qed.

Lemma get_mapping_implicit_eq set_iter nvc voids :
  _get_mapping set_iter (implicit_attrs nvc voids)
  = Ok (walk_labels nvc voids (seqZ 0 (nvc + Z.of_nat (length voids))) 0).
Proof.
  unfold _get_mapping, py_range. simpl. f_equal.
  destruct (decide (0 ≤ nvc + Z.of_nat (length voids))) as [Hn|Hn].
  - rewrite <- (Z2Nat.id _ Hn).
    rewrite mapping_loop_walk by (intros; apply lookup_empty).
    by rewrite (right_id_L ∅ (∪)).
  - unfold seqZ.
    by replace (Z.to_nat (nvc + Z.of_nat (length voids))) with O by lia.
Qed.

(** C2: without [GTclasses], [_get_mapping] is the walk of the labels
    [0 .. non_void_nclasses + |void_labels| - 1] in ascending order in which
    a void label goes to [non_void_nclasses] and leaves the canonical counter
    alone while any other label takes the counter and advances it; for
    [non_void_nclasses = 4] and void labels [3, 5] the mapping is
    [{0:0, 1:1, 2:2, 3:4, 4:3, 5:4}]. *)
Theorem get_mapping_implicit_walk :
  (∀ set_iter nvc voids,
     _get_mapping set_iter (implicit_attrs nvc voids)
     = Ok (walk_labels nvc voids
             (seqZ 0 (nvc + Z.of_nat (length voids))) 0))
  ∧ (∀ set_iter,
       _get_mapping set_iter (implicit_attrs 4 [3; 5])
       = Ok (list_to_map [(0, 0); (1, 1); (2, 2); (3, 4); (4, 3); (5, 4)])).
Proof.
  split; [apply get_mapping_implicit_eq|].
  intros set_iter. rewrite get_mapping_implicit_eq. reflexivity.
Qed.

Lemma walk_labels_lookup_is_Some nvc voids labels counter k :
  k ∈ labels → is_Some (walk_labels nvc voids labels counter !! k).
Proof.
  revert counter. induction labels as [|l rest IH]; intros counter Hk; simpl.
  - by apply elem_of_nil in Hk.
  - destruct (decide (l = k)) as [->|Hne].
    + case_bool_decide; rewrite lookup_insert_eq; by eexists.
    + apply elem_of_cons in Hk as [->|Hk]; [done|].
      case_bool_decide; rewrite lookup_insert_ne by done; by apply IH.
Qed.





Lemma assign_voids_Some n voids (m : gmap Z Z) :
  ∃ m', assign_voids (Some n) voids m = Ok m'
        ∧ ∀ k, m' !! k = if bool_decide (k ∈ voids) then Some n else m !! k.
Proof.
  revert m. induction voids as [|l rest IH]; intros m; simpl.
  - exists m. split; [done|]. intros k.
    done.
  - destruct (IH (<[l := n]> m)) as (m' & Hm' & Hlook).
    exists m'. split; [exact Hm'|]. intros k. rewrite Hlook.
    repeat case_bool_decide; try done.
    + exfalso. rewrite elem_of_cons in *. tauto.
    + destruct (decide (l = k)) as [->|Hne].
      * by rewrite lookup_insert_eq.
      * exfalso. rewrite elem_of_cons in *. intuition congruence.
    + rewrite lookup_insert_ne; [done|].
      intros ->. rewrite elem_of_cons in *. tauto.
Qed.



Lemma get_mapping_explicit_lookup set_iter nvc voids gt :
  ∃ mapping,
    _get_mapping set_iter (explicit_attrs nvc voids gt) = Ok mapping
    ∧ ∀ k, mapping !! k
           = if bool_decide (k ∈ voids) then Some nvc
             else dict_of_enumerate (set_iter (merge_sort Z.le gt) voids) !! k.
Proof.
  unfold _get_mapping. simpl.
  destruct (assign_voids_Some nvc voids
              (dict_of_enumerate (set_iter (merge_sort Z.le gt) voids)))
    as (m' & Hm' & Hlook).
  exists m'. by split.
Qed.

(** The example of the class docstring: [non_void_nclasses = 5],
    [GTclasses = [0, 2, 5, 9, 11, 12, 99]] and [_void_labels = [2, 99]], the
    set iterated in ascending order. *)
Example get_mapping_docstring_GTclasses :
  _get_mapping set_difference_sorted
    (explicit_attrs 5 [2; 99] [0; 2; 5; 9; 11; 12; 99])
  = Ok (list_to_map
          [(0, 0); (2, 5); (5, 1); (9, 2); (11, 3); (12, 4); (99, 5)]).
Proof. vm_compute. reflexivity. Qed.




(** C9 (amended): building the label mapping raises nothing, whatever
    [non_void_nclasses] and the void labels are: without [GTclasses] its keys
    are exactly the labels [0 .. non_void_nclasses + |void_labels| - 1] (none
    when that range is empty, as for [non_void_nclasses <= 0] and no void
    label), so a void label outside the range is left out; with [GTclasses]
    every void label is placed.  [__init__] reads no value of
    [non_void_nclasses]: it returns the same for every value. *)
Theorem get_mapping_never_raises set_iter nvc voids :
  (∃ mapping : gmap Z Z,
     _get_mapping set_iter (implicit_attrs nvc voids) = Ok mapping
     ∧ (∀ l, is_Some (mapping !! l) ↔ 0 ≤ l < nvc + Z.of_nat (length voids))
     ∧ (nvc + Z.of_nat (length voids) ≤ 0 → mapping = ∅))
  ∧ (∀ gt, ∃ mapping : gmap Z Z,
       _get_mapping set_iter (explicit_attrs nvc voids gt) = Ok mapping
       ∧ ∀ l, l ∈ voids → mapping !! l = Some nvc)
  ∧ (∀ Sample rnd cls a n,
       __init__ Sample rnd (with_non_void_nclasses cls n) a
       = __init__ Sample rnd (with_non_void_nclasses cls nvc) a).
Proof.
  split; [|split].
  - eexists. split; [apply get_mapping_implicit_eq|]. split.
    + intros l. split.
      * intros [v Hv]. apply walk_labels_counter in Hv as (Hl & _).
        apply elem_of_seqZ in Hl. lia.
      * intros Hl. apply walk_labels_lookup_is_Some, elem_of_seqZ. lia.
    + intros Hn. unfold seqZ.
      by replace (Z.to_nat (nvc + Z.of_nat (length voids))) with O by lia.
  - intros gt.
    destruct (get_mapping_explicit_lookup set_iter nvc voids gt)
      as (mapping & Hmap & Hlook).
    exists mapping. split; [done|]. intros l Hl.
    by rewrite Hlook, bool_decide_eq_true_2.
  - reflexivity.
Qed.

(** C9 fails as stated: with [non_void_nclasses = 0] the loader is built and
    the mapping is the empty one, and the void label 7, which the range
    [0 .. 2] of [non_void_nclasses = 2] cannot place, is left out of the
    mapping without an error. *)
Lemma non_positive_nclasses_counterexample :
  is_Ok (__init__ unit identity_random
           (camvid_like 0 [] [("A", five_frames)]) default_args)
  ∧ _get_mapping set_difference_sorted (implicit_attrs 0 []) = Ok ∅
  ∧ _get_mapping set_difference_sorted (implicit_attrs (-1) []) = Ok ∅
  ∧ _get_mapping set_difference_sorted (implicit_attrs 2 [7])
    = Ok (list_to_map [(0, 0); (1, 1); (2, 2)]).
Proof.
  split; [|repeat split; reflexivity].
  eexists. vm_compute. reflexivity.
Qed.

(** ** Sequence windowing *)

Lemma overlap_grouper_length iterable n prefix :
  1 ≤ n →
  Z.of_nat (length (overlap_grouper iterable n prefix))
  = Z.max 0 (Z.of_nat (length iterable) - n + 1).
Proof.
  intros Hn. induction iterable as [|x rest IH]; simpl; [lia|].
  case_bool_decide; simpl; lia.
Qed.

Lemma overlap_grouper_window_length iterable n prefix :
  Forall (λ w : window, Z.of_nat (length w) = n)
    (overlap_grouper iterable n prefix).
Proof.
  induction iterable as [|x rest IH]; simpl; [constructor|].
  case_bool_decide as Hn; [|constructor].
  constructor; [|exact IH].
  rewrite length_fmap, length_take. simpl length. lia.
Qed.

Lemma stride_from_lookup {A} (l : list A) (step skip i : nat) :
  (1 ≤ step)%nat →
  stride_from step skip l !! i = l !! (skip + i * step)%nat.
Proof.
  intros Hstep. revert skip i.
  induction l as [|x rest IH]; intros skip i; simpl; [done|].
  destruct skip as [|k].
  - destruct i as [|i']; simpl; [done|].
    rewrite IH. replace (step + i' * step)%nat
      with (S (step - 1 + i' * step)) by lia. done.
  - rewrite IH. done.
Qed.

Lemma extended_names_length seq_length names :
  1 ≤ seq_length → names ≠ [] →
  ∃ extended, extended_names seq_length names = Ok extended
    ∧ Z.of_nat (length extended)
      = Z.of_nat (length names) + 2 * (seq_length `div` 2).
Proof.
  intros Hs Hne. unfold extended_names.
  destruct names as [|first rest]; [done|].
  destruct (last (first :: rest)) as [lst|] eqn:Hlast.
  - unfold py_last. rewrite Hlast. eexists. split; [reflexivity|].
    unfold py_repeat. rewrite !length_app, !length_replicate.
    assert (0 ≤ seq_length `div` 2) by (apply Z.div_pos; lia). lia.
  - by apply last_None in Hlast.
Qed.

Lemma stride1_sequences_length seq_length prefix names :
  1 ≤ seq_length → names ≠ [] →
  ∃ sequences, stride1_sequences seq_length prefix names = Ok sequences
    ∧ Z.of_nat (length sequences)
      = Z.of_nat (length names) + 1 - seq_length `mod` 2
    ∧ Forall (λ w : window, Z.of_nat (length w) = seq_length) sequences.
Proof.
  intros Hs Hne.
  destruct (extended_names_length seq_length names Hs Hne)
    as (extended & Hext & Hlen).
  unfold stride1_sequences. rewrite Hext. eexists. split; [reflexivity|].
  split; [|apply overlap_grouper_window_length].
  rewrite overlap_grouper_length by done. rewrite Hlen.
  pose proof (Z.div_mod seq_length 2).
  pose proof (Z.mod_pos_bound seq_length 2).
  destruct names; [done|]. simpl length. lia.
Qed.

(** C1 (amended): for a subset of [L >= 1] names and [seq_length >= 1] the
    padded stride-1 windowing yields [L + 1 - seq_length mod 2] windows
    ([L] for an odd [seq_length], [L + 1] for an even one), each of
    [seq_length] names, and with [0 <= overlap < seq_length] the retained
    windows are every [(seq_length - overlap)]-th of them from offset 0; for
    [[f0, f1, f2, f3, f4]], [seq_length = 3] and [overlap = 1] they are
    [[f0,f0,f1], [f1,f2,f3], [f3,f4,f4]]. *)
Theorem stride1_sequences_count seq_length overlap prefix names :
  1 ≤ seq_length → names ≠ [] →
  (∃ sequences,
     stride1_sequences seq_length prefix names = Ok sequences
     ∧ Z.of_nat (length sequences)
       = Z.of_nat (length names) + 1 - seq_length `mod` 2
     ∧ Forall (λ w : window, Z.of_nat (length w) = seq_length) sequences
     ∧ (0 ≤ overlap < seq_length →
        ∃ retained,
          subset_sequences seq_length overlap prefix names = Ok retained
          ∧ ∀ i, retained !! i
                 = sequences !! (i * Z.to_nat (seq_length - overlap))%nat))
  ∧ subset_sequences 3 1 "A" five_frames
    = Ok [[("A", "f0"); ("A", "f0"); ("A", "f1")];
          [("A", "f1"); ("A", "f2"); ("A", "f3")];
          [("A", "f3"); ("A", "f4"); ("A", "f4")]].
Proof.
  intros Hs Hne. split; [|reflexivity].
  destruct (stride1_sequences_length seq_length prefix names Hs Hne)
    as (sequences & Hseq & Hlen & Hall).
  exists sequences. repeat split; try done.
  intros Ho. unfold subset_sequences. rewrite Hseq.
  unfold py_slice_step. simpl.
  rewrite bool_decide_eq_false_2, bool_decide_eq_true_2 by lia.
  eexists. split; [reflexivity|].
  intros i. rewrite stride_from_lookup by lia. done.
Qed.

Lemma stride1_sequences_count_witness :
  (1 ≤ 1 ∧ ["f0"] ≠ ([] : list string))
  ∧ (∃ sequences,
       stride1_sequences 1 "A" ["f0"] = Ok sequences
       ∧ Z.of_nat (length sequences)
         = Z.of_nat (length ["f0"]) + 1 - 1 `mod` 2
       ∧ Forall (λ w : window, Z.of_nat (length w) = 1) sequences
       ∧ (0 ≤ 0 < 1 →
          ∃ retained,
            subset_sequences 1 0 "A" ["f0"] = Ok retained
            ∧ ∀ i, retained !! i
                   = sequences !! (i * Z.to_nat (1 - 0))%nat))
    ∧ subset_sequences 3 1 "A" five_frames
      = Ok [[("A", "f0"); ("A", "f0"); ("A", "f1")];
            [("A", "f1"); ("A", "f2"); ("A", "f3")];
            [("A", "f3"); ("A", "f4"); ("A", "f4")]].
Proof.
  split; [split; [lia|done]|].
  apply (stride1_sequences_count 1 0 "A" ["f0"]); [lia|done].
Defined.

(** C1 fails as stated: the five names [f0 .. f4] padded for
    [seq_length = 3] give five stride-1 windows, not [5 + 3 - 1 = 7]. *)
Lemma stride1_sequences_count_counterexample :
  stride1_sequences 3 "A" five_frames
  = Ok [[("A", "f0"); ("A", "f0"); ("A", "f1")];
        [("A", "f0"); ("A", "f1"); ("A", "f2")];
        [("A", "f1"); ("A", "f2"); ("A", "f3")];
        [("A", "f2"); ("A", "f3"); ("A", "f4")];
        [("A", "f3"); ("A", "f4"); ("A", "f4")]]
  ∧ ¬ (∃ sequences,
         stride1_sequences 3 "A" five_frames = Ok sequences
         ∧ Z.of_nat (length sequences)
           = Z.of_nat (length five_frames) + 3 - 1).
Proof.
  split; [reflexivity|].
  intros (sequences & Hseq & Hlen).
  assert (Hs : stride1_sequences 3 "A" five_frames
    = Ok [[("A", "f0"); ("A", "f0"); ("A", "f1")];
          [("A", "f0"); ("A", "f1"); ("A", "f2")];
          [("A", "f1"); ("A", "f2"); ("A", "f3")];
          [("A", "f2"); ("A", "f3"); ("A", "f4")];
          [("A", "f3"); ("A", "f4"); ("A", "f4")]]) by reflexivity.
  rewrite Hs in Hseq. injection Hseq as <-. simpl in Hlen. lia.
Qed.

(** ** Batch scheduling *)

Lemma fmap_lookup_total_seq `{!Inhabited A} (l : list A) :
  (λ i, l !!! i) <$> seq 0 (length l) = l.
Proof.
  apply list_eq. intros i. rewrite list_lookup_fmap.
  destruct (decide (i < length l)%nat) as [Hlt|Hge].
  - rewrite lookup_seq_lt by done. simpl.
    symmetry. by apply list_lookup_lookup_total_lt.
  - rewrite lookup_seq_ge by lia. simpl.
    symmetry. apply lookup_ge_None. lia.
Qed.

Lemma py_take_indices_in_range `{!Inhabited A} (l : list A) idx :
  Forall (λ i, i < length l)%nat idx →
  py_take_indices l idx = Ok ((λ i, l !!! i) <$> idx).
Proof.
  induction 1 as [|i idx Hi _ IH]; simpl; [done|].
  rewrite (list_lookup_lookup_total_lt l i Hi), IH. done.
Qed.

Lemma permutation_in_range (perm : list nat) n k :
  perm ≡ₚ seq 0 n → Forall (λ i, i < n)%nat (take k perm).
Proof.
  intros Hperm. apply Forall_take, Forall_forall. intros i Hi.
  rewrite Hperm in Hi. apply elem_of_seq in Hi. lia.
Qed.

Lemma py_slice_to_length {A B} (l : list A) (l' : list B) k :
  length l = length l' →
  length (py_slice_to l k) = length (py_slice_to l' k).
Proof.
  intros Hlen. unfold py_slice_to.
  case_bool_decide; rewrite !length_take, Hlen; done.
Qed.


Lemma pick_one rnd spv calls (sequences : list window) :
  valid_random rnd → spv ≠ 0 →
  ∃ chosen,
    py_take_indices sequences
      (py_slice_to (np_random_permutation rnd calls (length sequences)) spv)
    = Ok chosen
    ∧ pick_ok spv sequences chosen.
Proof.
  intros [Hperm _] Hspv.
  specialize (Hperm calls (length sequences)).
  set (perm := np_random_permutation rnd calls (length sequences)) in *.
  assert (Hfull : (λ i, sequences !!! i) <$> perm ≡ₚ sequences).
  { rewrite Hperm. by rewrite fmap_lookup_total_seq. }
  assert (Hplen : length perm = length sequences).
  { by rewrite (Permutation_length Hperm), length_seq. }
  assert (Hslice : ∃ k, py_slice_to perm spv = take k perm
                        ∧ (0 < spv → k = Z.to_nat spv)).
  { unfold py_slice_to. case_bool_decide; eexists; split; try done; lia. }
  pose proof (py_slice_to_length perm sequences spv Hplen) as Hlen.
  destruct Hslice as (k & Hk & Hpos). rewrite Hk in Hlen |- *.
  rewrite py_take_indices_in_range by by apply permutation_in_range.
  eexists. split; [done|].
  unfold pick_ok. rewrite bool_decide_eq_false_2 by done.
  split; [|split].
  - by rewrite length_fmap.
  - rewrite fmap_take. etrans; [apply sublist_submseteq, sublist_take|].
    by apply Permutation_submseteq.
  - intros Hle. rewrite take_ge; [done|].
    rewrite Hplen, (Hpos ltac:(lia)). lia.
Qed.

Lemma select_sequences_picks rnd spv calls items :
  valid_random rnd →
  ∃ picks calls',
    select_sequences rnd spv calls items = Ok (picks, calls')
    ∧ Forall2 (λ item pick, pick_ok spv item.2 pick) items picks.
Proof.
  intros Hvalid. revert calls.
  induction items as [|[prefix sequences] rest IH]; intros calls; simpl.
  - by exists [], calls.
  - case_bool_decide as Hspv.
    + destruct (pick_one rnd spv calls sequences Hvalid Hspv)
        as (chosen & -> & Hpick).
      destruct (IH (S calls)) as (picks & calls' & -> & Hall).
      exists (chosen :: picks), calls'. split; [done|].
      by constructor.
    + destruct (IH calls) as (picks & calls' & -> & Hall).
      exists (sequences :: picks), calls'. split; [done|].
      constructor; [|done]. unfold pick_ok. simpl.
      rewrite bool_decide_eq_true_2; [done|].
      destruct (decide (spv = 0)); [done|]. by destruct Hspv.
Qed.

Lemma group_windows_padded (ws : list window) k :
  group_windows ((Some <$> ws) ++ replicate k None) = ws.
Proof.
  unfold group_windows. rewrite omap_app.
  assert (omap id (replicate k (None : option window)) = []) as ->.
  { induction k; simpl; done. }
  rewrite app_nil_r. induction ws as [|w ws IH]; csimpl; [done|].
  by f_equal.
Qed.

Lemma grouper_loop_windows fuel (l : list window) n :
  (1 ≤ n)%nat → (length l ≤ fuel)%nat →
  concat (group_windows <$> grouper_loop fuel l n) = l.
Proof.
  intros Hn. revert l. induction fuel as [|fuel IH]; intros l Hl.
  - destruct l; [done|simpl in Hl; lia].
  - destruct l as [|w l']; [done|].
    cbn [grouper_loop fmap list_fmap concat].
    rewrite group_windows_padded, IH.
    + apply take_drop.
    + rewrite length_drop. simpl length in *. lia.
Qed.

Lemma grouper_loop_length fuel (l : list window) n :
  (1 ≤ n)%nat → (length l ≤ fuel)%nat →
  Z.of_nat (length (grouper_loop fuel l n))
  = ceil_div (Z.of_nat (length l)) (Z.of_nat n).
Proof.
  intros Hn. revert l. induction fuel as [|fuel IH]; intros l Hl.
  - destruct l; [|simpl in Hl; lia]. simpl. unfold ceil_div.
    symmetry. apply Z.div_small. lia.
  - destruct l as [|w l']; [simpl; unfold ceil_div; symmetry;
                            apply Z.div_small; lia|].
    cbn [grouper_loop].
    change (length (_ :: grouper_loop fuel (drop n (w :: l')) n))
      with (S (length (grouper_loop fuel (drop n (w :: l')) n))).
    rewrite Nat2Z.inj_succ, IH by (rewrite length_drop; simpl length in *; lia).
    rewrite length_drop. unfold ceil_div.
    set (len := length (w :: l')) in *.
    assert (1 ≤ len)%nat by (subst len; simpl; lia).
    destruct (decide (n ≤ len)%nat) as [Hle|Hgt].
    + replace (Z.of_nat len + Z.of_nat n - 1)
        with (Z.of_nat (len - n) + Z.of_nat n - 1 + 1 * Z.of_nat n) by lia.
      rewrite Z.div_add by lia. lia.
    + replace (len - n)%nat with O by lia.
      rewrite (Z.div_small (Z.of_nat 0 + Z.of_nat n - 1)) by lia.
      apply (Z.div_unique _ _ _ (Z.of_nat len - 1)); [|lia].
      left. lia.
Qed.


Lemma grouper_windows (l : list window) n :
  1 ≤ n →
  concat (group_windows <$> grouper l n) = l
  ∧ Z.of_nat (length (grouper l n)) = ceil_div (Z.of_nat (length l)) n.
Proof.
  intros Hn. unfold grouper. rewrite bool_decide_eq_true_2 by done. split.
  - apply grouper_loop_windows; lia.
  - rewrite grouper_loop_length by lia. f_equal. lia.
Qed.







Lemma fill_names_batches_Ok rnd p ep shuffle :
  valid_random rnd →
  ∃ picks calls flat,
    select_sequences rnd (seq_per_video p) (np_calls ep) (names_sequences ep)
    = Ok (picks, calls)
    ∧ Forall2 (λ item pick, pick_ok (seq_per_video p) item.2 pick)
        (names_sequences ep) picks
    ∧ flat ≡ₚ concat picks
    ∧ (shuffle = false → flat = concat picks)
    ∧ _fill_names_batches rnd p ep shuffle
      = Ok {| names_sequences := names_sequences ep;
              nsamples := length flat;
              nbatches := length (grouper flat (batch_size p));
              names_batches := grouper flat (batch_size p);
              np_calls := calls;
              rng_calls := if shuffle then S (rng_calls ep)
                           else rng_calls ep |}.
Proof.
  intros Hvalid.
  destruct (select_sequences_picks rnd (seq_per_video p) (np_calls ep)
              (names_sequences ep) Hvalid) as (picks & calls & Hsel & Hall).
  exists picks, calls.
  exists (if shuffle then rng_shuffle rnd (rng_calls ep) (concat picks)
          else concat picks).
  split; [done|]. split; [done|]. split; [|split].
  - destruct shuffle; [apply Hvalid|done].
  - by intros ->.
  - unfold _fill_names_batches. rewrite Hsel. done.
Qed.

Lemma select_sequences_uncapped rnd calls items :
  select_sequences rnd 0 calls items = Ok (items.*2, calls).
Proof.
  induction items as [|[prefix sequences] rest IH]; simpl; [done|].
  rewrite IH. done.
Qed.

Lemma identity_random_valid : valid_random identity_random.
Proof. split; intros; reflexivity. Qed.






(** ** Construction *)

(** C7: the thread check of [__init__] raises exactly when threads are used
    with more than one fetcher and shuffling at each epoch is off; [__init__]
    then raises that error, and for every other combination the check passes
    and [__init__] goes on with its other steps. *)
Theorem check_threads_spec a :
  let multi_unshuffled :=
    Args.use_threads a = true ∧ 1 < Args.nthreads a
    ∧ Args.shuffle_at_each_epoch a = false in
  (check_threads a
   = Raise (NotImplementedError "Multiple threads are not order preserving")
   ↔ multi_unshuffled)
  ∧ (check_threads a = Ok () ↔ ¬ multi_unshuffled)
  ∧ (∀ Sample rnd cls,
       multi_unshuffled →
       __init__ Sample rnd cls a
       = Raise (NotImplementedError
                  "Multiple threads are not order preserving"))
  ∧ (∀ Sample rnd cls,
       ¬ multi_unshuffled →
       __init__ Sample rnd cls a = init_after_thread_check Sample rnd cls a).
Proof.
  intros multi_unshuffled. subst multi_unshuffled. unfold __init__.
  destruct (decide (Args.use_threads a = true ∧ 1 < Args.nthreads a
                    ∧ Args.shuffle_at_each_epoch a = false)) as [Hm|Hm].
  - assert (Hraise : check_threads a = Raise (NotImplementedError
                       "Multiple threads are not order preserving")).
    { destruct Hm as (Hu & Hn & Hs). unfold check_threads.
      by rewrite Hu, Hs, bool_decide_eq_true_2. }
    rewrite Hraise. repeat split; try done; try apply Hm.
  - assert (Hok : check_threads a = Ok ()).
    { unfold check_threads.
      destruct (Args.use_threads a), (Args.shuffle_at_each_epoch a);
        case_bool_decide; simpl; try done.
      exfalso. by apply Hm. }
    rewrite Hok. repeat split; try done.
Qed.

Lemma check_overlap_cases a :
  check_overlap a = Ok ()
  ∨ check_overlap a
    = Raise (ValueError "`overlap` should be smaller than `seq_length`").
Proof.
  unfold check_overlap. destruct (Args.overlap a); [|by left].
  destruct (_ && _); [by right|by left].
Qed.

Lemma init_raises_on_check_overlap Sample rnd cls a e :
  check_overlap a = Raise e → is_Raise (__init__ Sample rnd cls a).
Proof.
  intros Hov. unfold __init__, init_after_thread_check.
  destruct (check_threads a) as [[]|e1]; simpl; [|by eexists].
  destruct (check_mandatory cls) as [[]|e2]; simpl; [|by eexists].
  destruct (check_data_shape cls a) as [[]|e3]; simpl; [|by eexists].
  rewrite Hov. simpl. by eexists.
Qed.

(** C6 (amended): for [seq_length >= 1] the overlap check of [__init__]
    raises [ValueError] exactly when an overlap is given with
    [overlap >= seq_length], and construction then fails; the check passes
    for every [overlap < seq_length], a negative one included, and when no
    overlap is given. *)
Theorem check_overlap_spec a :
  1 ≤ Args.seq_length a →
  (∀ o, Args.overlap a = Some o →
     (check_overlap a
      = Raise (ValueError "`overlap` should be smaller than `seq_length`")
      ↔ Args.seq_length a ≤ o)
     ∧ (check_overlap a = Ok () ↔ o < Args.seq_length a)
     ∧ (Args.seq_length a ≤ o →
        ∀ Sample rnd cls, is_Raise (__init__ Sample rnd cls a)))
  ∧ (Args.overlap a = None → check_overlap a = Ok ()).
Proof.
  intros Hs. split.
  - intros o Ho.
    assert (Hiff : check_overlap a
      = Raise (ValueError "`overlap` should be smaller than `seq_length`")
      ↔ Args.seq_length a ≤ o).
    { unfold check_overlap. rewrite Ho.
      repeat case_bool_decide; simpl; split; try done; try lia. }
    split; [exact Hiff|]. split.
    + destruct (check_overlap_cases a) as [Hok|Hraise].
      * split; [|done]. intros _.
        destruct (decide (o < Args.seq_length a)); [done|].
        assert (Hge : Args.seq_length a ≤ o) by lia.
        apply Hiff in Hge. congruence.
      * split; [congruence|]. intros Hlt.
        apply Hiff in Hraise. lia.
    + intros Hge Sample rnd cls.
      eapply init_raises_on_check_overlap. by apply Hiff.
  - intros Ho. unfold check_overlap. by rewrite Ho.
Qed.

Lemma check_overlap_spec_witness :
  1 ≤ Args.seq_length args_overlap_3_of_3
  ∧ check_overlap args_overlap_3_of_3
    = Raise (ValueError "`overlap` should be smaller than `seq_length`")
  ∧ is_Raise (__init__ unit identity_random
                (camvid_like 11 [] [("A", five_frames)]) args_overlap_3_of_3).
Proof.
  split; [simpl; lia|].
  destruct (check_overlap_spec args_overlap_3_of_3 ltac:(simpl; lia))
    as [Hsome _].
  destruct (Hsome 3 eq_refl) as (Hiff & _ & Hinit).
  split; [apply Hiff; simpl; lia|apply Hinit; simpl; lia].
Defined.

(** C6 fails as stated: with [seq_length = 3] and [overlap = -1] the check
    passes and the loader is built, its windows three frames apart from end
    to start. *)
Lemma negative_overlap_counterexample :
  check_overlap args_negative_overlap = Ok ()
  ∧ is_Ok (__init__ unit identity_random
             (camvid_like 11 [] [("A", five_frames)]) args_negative_overlap)
  ∧ subset_sequences 3 (-1) "A" five_frames
    = Ok [[("A", "f0"); ("A", "f0"); ("A", "f1")];
          [("A", "f3"); ("A", "f4"); ("A", "f4")]].
Proof.
  split; [reflexivity|]. split; [|reflexivity].
  eexists. vm_compute. reflexivity.
Qed.

(** ** Stepping *)




Section SteppingProperties.
Context {Sample : Type}.
Variable load_sequence : window → result Sample.
Variable rnd : RandomSources.
Variable p : Params.




End SteppingProperties.






(** * Further properties *)

(** ** Label mapping without [GTclasses] *)

Lemma walk_labels_elem_of nvc voids labels counter l v :
  walk_labels nvc voids labels counter !! l = Some v → l ∈ labels.
Proof.
  intros Hl. destruct (decide (l ∈ labels)) as [|Hnin]; [done|].
  by rewrite walk_labels_lookup_None in Hl.
Qed.

Lemma walk_non_void_image nvc voids n a c v :
  (∃ l, (l ∉ voids)
        ∧ walk_labels nvc voids (seqZ a (Z.of_nat n)) c !! l = Some v)
  ↔ c ≤ v < c + Z.of_nat
                  (length (filter (λ l, l ∉ voids) (seqZ a (Z.of_nat n)))).
Proof.
  revert a c. induction n as [|n IH]; intros a c.
  - simpl. split; [|lia]. intros (l & _ & Hl). by rewrite lookup_empty in Hl.
  - rewrite seqZ_cons by lia.
    replace (Z.pred (Z.of_nat (S n))) with (Z.of_nat n) by lia.
    assert (Hfresh : a ∉ seqZ (Z.succ a) (Z.of_nat n)).
    { rewrite elem_of_seqZ. lia. }
    simpl. case_bool_decide as Ha.
    + rewrite filter_cons_False by (intros H; by apply H).
      rewrite <- IH. split; intros (l & Hl & Hv); exists l; (split; [done|]).
      * rewrite lookup_insert_ne in Hv; [done|]. by intros ->.
      * rewrite lookup_insert_ne; [done|]. by intros ->.
    + rewrite filter_cons_True by done. simpl length.
      specialize (IH (Z.succ a) (c + 1)). split.
      * intros (l & Hl & Hv). destruct (decide (l = a)) as [->|Hne].
        -- rewrite lookup_insert_eq in Hv. injection Hv as <-. lia.
        -- rewrite lookup_insert_ne in Hv by done.
           assert (c + 1 ≤ v < c + 1 + Z.of_nat
             (length (filter (λ l, l ∉ voids) (seqZ (Z.succ a) (Z.of_nat n)))))
             by (apply IH; eauto).
           lia.
      * intros Hv. destruct (decide (v = c)) as [->|Hne].
        -- exists a. split; [done|]. by rewrite lookup_insert_eq.
        -- destruct IH as [_ IH]. destruct IH as (l & Hl & Hlv); [lia|].
           exists l. split; [done|]. rewrite lookup_insert_ne; [done|].
           intros ->. apply walk_labels_elem_of in Hlv. done.
Qed.

Lemma walk_non_void_monotone nvc voids n a c l1 l2 v1 v2 :
  l1 ∉ voids → l2 ∉ voids →
  walk_labels nvc voids (seqZ a (Z.of_nat n)) c !! l1 = Some v1 →
  walk_labels nvc voids (seqZ a (Z.of_nat n)) c !! l2 = Some v2 →
  l1 < l2 → v1 < v2.
Proof.
  intros Hl1 Hl2. revert a c. induction n as [|n IH]; intros a c.
  - simpl. by rewrite lookup_empty.
  - rewrite seqZ_cons by lia.
    replace (Z.pred (Z.of_nat (S n))) with (Z.of_nat n) by lia.
    simpl. case_bool_decide as Ha.
    + rewrite !lookup_insert_ne by (by intros ->). apply IH.
    + intros H1 H2 Hlt. destruct (decide (l1 = a)) as [->|Hne1].
      * rewrite lookup_insert_eq in H1. injection H1 as <-.
        rewrite lookup_insert_ne in H2 by lia.
        pose proof (proj1 (walk_non_void_image nvc voids n (Z.succ a)
                             (c + 1) v2) (ex_intro _ l2 (conj Hl2 H2))).
        lia.
      * rewrite lookup_insert_ne in H1 by done.
        pose proof (walk_labels_elem_of _ _ _ _ _ _ H1) as Hin.
        apply elem_of_seqZ in Hin.
        rewrite lookup_insert_ne in H2 by lia. by eapply IH.
Qed.

Lemma walk_non_void_le nvc voids n a c l v :
  l ∉ voids →
  walk_labels nvc voids (seqZ a (Z.of_nat n)) c !! l = Some v →
  c ≤ v ∧ v - c ≤ l - a.
Proof.
  intros Hl. revert a c. induction n as [|n IH]; intros a c.
  - simpl. by rewrite lookup_empty.
  - rewrite seqZ_cons by lia.
    replace (Z.pred (Z.of_nat (S n))) with (Z.of_nat n) by lia.
    simpl. case_bool_decide as Ha.
    + rewrite lookup_insert_ne by (by intros ->).
      intros Hv. apply IH in Hv. lia.
    + destruct (decide (l = a)) as [->|Hne].
      * rewrite lookup_insert_eq. intros [= <-]. lia.
      * rewrite lookup_insert_ne by done. intros Hv. apply IH in Hv. lia.
Qed.

Lemma walk_void_lookup nvc voids labels c l :
  l ∈ labels → l ∈ voids →
  walk_labels nvc voids labels c !! l = Some nvc.
Proof.
  revert c. induction labels as [|x rest IH]; intros c Hin Hvoid.
  - by apply elem_of_nil in Hin.
  - simpl. destruct (decide (x = l)) as [->|Hne].
    + rewrite bool_decide_eq_true_2 by done. by rewrite lookup_insert_eq.
    + apply elem_of_cons in Hin as [->|Hin]; [done|].
      case_bool_decide; rewrite lookup_insert_ne by done; by apply IH.
Qed.

Lemma implicit_mapping_ranks_aux set_iter nvc voids :
  ∃ mapping : gmap Z Z,
    _get_mapping set_iter (implicit_attrs nvc voids) = Ok mapping
    ∧ (∀ l, 0 ≤ l < nvc + Z.of_nat (length voids) → l ∈ voids →
         mapping !! l = Some nvc)
    ∧ (∀ v, (∃ l, (l ∉ voids) ∧ mapping !! l = Some v)
            ↔ 0 ≤ v < Z.of_nat (length (non_void_labels nvc voids)))
    ∧ (∀ l1 l2 v1 v2, l1 ∉ voids → l2 ∉ voids →
         mapping !! l1 = Some v1 → mapping !! l2 = Some v2 →
         l1 < l2 → v1 < v2)
    ∧ (∀ l v, l ∉ voids → mapping !! l = Some v → 0 ≤ v ≤ l).
Proof.
  eexists. split; [apply get_mapping_implicit_eq|].
  unfold non_void_labels, py_range.
  set (N := nvc + Z.of_nat (length voids)).
  assert (HN : seqZ 0 N = seqZ 0 (Z.of_nat (Z.to_nat N))).
  { unfold seqZ. by rewrite Nat2Z.id. }
  rewrite HN. split; [|split; [|split]].
  - intros l Hl Hvoid. apply walk_void_lookup; [|done].
    rewrite <- HN. apply elem_of_seqZ. lia.
  - intros v. rewrite walk_non_void_image. lia.
  - intros l1 l2 v1 v2. apply walk_non_void_monotone.
  - intros l v Hl Hv. apply walk_non_void_le in Hv; [lia|done].
Qed.

(** X1: without [GTclasses], the mapping sends the void labels of the range
    to [non_void_nclasses] and the [K] non-void labels of the range onto
    [0 .. K-1], one each and in ascending order; no non-void label moves
    up. *)
Theorem implicit_mapping_ranks set_iter nvc voids :
  ∃ mapping : gmap Z Z,
    _get_mapping set_iter (implicit_attrs nvc voids) = Ok mapping
    ∧ (∀ l, 0 ≤ l < nvc + Z.of_nat (length voids) → l ∈ voids →
         mapping !! l = Some nvc)
    ∧ (∀ v, (∃ l, (l ∉ voids) ∧ mapping !! l = Some v)
            ↔ 0 ≤ v < Z.of_nat (length (non_void_labels nvc voids)))
    ∧ (∀ l1 l2 v1 v2, l1 ∉ voids → l2 ∉ voids →
         mapping !! l1 = Some v1 → mapping !! l2 = Some v2 →
         l1 < l2 → v1 < v2)
    ∧ (∀ l v, l ∉ voids → mapping !! l = Some v → 0 ≤ v ≤ l).
Proof.
  intros. pose proof (implicit_mapping_ranks_aux) as Haux.
  eapply Haux; eassumption.
Qed.

Lemma non_void_labels_count nvc voids :
  (length (non_void_labels nvc voids)
   + length (filter (λ l, l ∈ voids)
               (py_range (nvc + Z.of_nat (length voids)))))%nat
  = Z.to_nat (nvc + Z.of_nat (length voids)).
Proof.
  unfold non_void_labels, py_range.
  pose proof (filter_app_complement (λ l, l ∈ voids)
                (seqZ 0 (nvc + Z.of_nat (length voids)))) as Hperm.
  apply Permutation_length in Hperm.
  rewrite length_app, length_seqZ in Hperm. lia.
Qed.

Lemma voids_in_range_NoDup nvc voids :
  NoDup (filter (λ l, l ∈ voids) (py_range (nvc + Z.of_nat (length voids)))).
Proof. apply NoDup_filter, NoDup_seqZ. Qed.

Lemma non_void_labels_length nvc voids :
  NoDup voids →
  (∀ l, l ∈ voids → 0 ≤ l < nvc + Z.of_nat (length voids)) →
  Z.of_nat (length (non_void_labels nvc voids)) = Z.max 0 nvc.
Proof.
  intros Hnd Hrange.
  pose proof (non_void_labels_count nvc voids) as Hcount.
  assert (Hperm : filter (λ l, l ∈ voids)
                    (py_range (nvc + Z.of_nat (length voids))) ≡ₚ voids).
  { apply NoDup_Permutation; [apply voids_in_range_NoDup|done|].
    intros l. rewrite list_elem_of_filter. unfold py_range.
    rewrite elem_of_seqZ. split; [tauto|]. intros Hl.
    split; [done|]. apply Hrange in Hl. lia. }
  rewrite (Permutation_length Hperm) in Hcount. lia.
Qed.

Lemma non_void_labels_surplus nvc voids l0 :
  0 ≤ nvc → l0 ∈ voids → ¬ (0 ≤ l0 < nvc + Z.of_nat (length voids)) →
  nvc < Z.of_nat (length (non_void_labels nvc voids)).
Proof.
  intros Hnvc Hl0 Hout.
  pose proof (non_void_labels_count nvc voids) as Hcount.
  set (inside := filter (λ l, l ∈ voids)
                   (py_range (nvc + Z.of_nat (length voids)))) in *.
  assert (Hsub : inside ⊆+ voids).
  { apply NoDup_submseteq; [apply voids_in_range_NoDup|].
    intros l. unfold inside. rewrite list_elem_of_filter. tauto. }
  destruct (decide (length voids ≤ length inside)%nat) as [Hle|Hlt].
  - exfalso. apply Hout.
    pose proof (submseteq_length_Permutation _ _ Hsub Hle) as Hperm.
    rewrite <- Hperm in Hl0. unfold inside in Hl0.
    apply list_elem_of_filter in Hl0 as [_ Hl0].
    unfold py_range in Hl0. apply elem_of_seqZ in Hl0. lia.
  - lia.
Qed.

Lemma implicit_mapping_well_formed_aux set_iter nvc voids :
  NoDup voids →
  (∀ l, l ∈ voids → 0 ≤ l < nvc + Z.of_nat (length voids)) →
  ∃ (mapping : gmap Z Z) (nc : Z),
    _get_mapping set_iter (implicit_attrs nvc voids) = Ok mapping
    ∧ nclasses (implicit_attrs nvc voids) = Ok nc
    ∧ (∀ v, (∃ l, (l ∉ voids) ∧ mapping !! l = Some v) ↔ 0 ≤ v < nvc)
    ∧ (map_img mapping : gset Z) = list_to_set (seqZ 0 nc)
    ∧ (∀ l v, mapping !! l = Some v → 0 ≤ v < nc).
Proof.
  intros Hnd Hrange.
  destruct (implicit_mapping_ranks_aux set_iter nvc voids)
    as (mapping & Hmap & Hvoid & Himg & _ & _).
  rewrite (non_void_labels_length nvc voids Hnd Hrange) in Himg.
  set (nc := if bool_decide (voids = []) then nvc else nvc + 1).
  assert (Hnc : nclasses (implicit_attrs nvc voids) = Ok nc).
  { unfold nclasses, nc. simpl. by destruct voids. }
  assert (Hdom : ∀ l v, mapping !! l = Some v →
                        0 ≤ l < nvc + Z.of_nat (length voids)).
  { intros l v Hl. rewrite get_mapping_implicit_eq in Hmap.
    injection Hmap as <-. apply walk_labels_elem_of, elem_of_seqZ in Hl. lia. }
  assert (Hval : ∀ l v, mapping !! l = Some v → 0 ≤ v < nc).
  { intros l v Hl. destruct (decide (l ∈ voids)) as [Hin|Hnin].
    - rewrite Hvoid in Hl by eauto. injection Hl as <-.
      pose proof (Hrange _ Hin). unfold nc.
      rewrite bool_decide_eq_false_2 by (by intros ->; apply elem_of_nil in Hin).
      assert (0 ≤ Z.max 0 nvc) by lia.
      pose proof (non_void_labels_length nvc voids Hnd Hrange).
      pose proof (non_void_labels_count nvc voids).
      assert (length voids ≤ Z.to_nat (nvc + Z.of_nat (length voids)))%nat.
      { rewrite <- (length_seqZ 0).
        apply submseteq_length, NoDup_submseteq; [done|].
        intros x Hx. apply elem_of_seqZ. apply Hrange in Hx. lia. }
      lia.
    - assert (0 ≤ v < Z.max 0 nvc) by (apply Himg; eauto).
      unfold nc. case_bool_decide; lia. }
  exists mapping, nc. split; [done|]. split; [done|]. split; [|split].
  - intros v. rewrite Himg. lia.
  - apply set_eq. intros v.
    rewrite elem_of_map_img, elem_of_list_to_set, elem_of_seqZ. split.
    + intros [l Hl]. apply Hval in Hl. lia.
    + intros Hv. destruct (decide (v < nvc)) as [Hlt|Hge].
      * destruct (proj2 (Himg v)) as (l & _ & Hl); [lia|]. by exists l.
      * unfold nc in Hv. case_bool_decide as Hnil; [lia|].
        destruct voids as [|l rest]; [done|].
        exists l. assert (v = nvc) as -> by lia.
        apply Hvoid; [apply Hrange|]; left.
  - exact Hval.
Qed.

(** X2: without [GTclasses] and with void labels that are distinct and lie
    in [0 .. non_void_nclasses + |void_labels| - 1], the non-void labels are
    mapped onto [0 .. non_void_nclasses - 1] and the image of the mapping is
    exactly [0 .. nclasses - 1]. *)
Theorem implicit_mapping_well_formed set_iter nvc voids :
  NoDup voids →
  (∀ l, l ∈ voids → 0 ≤ l < nvc + Z.of_nat (length voids)) →
  ∃ (mapping : gmap Z Z) (nc : Z),
    _get_mapping set_iter (implicit_attrs nvc voids) = Ok mapping
    ∧ nclasses (implicit_attrs nvc voids) = Ok nc
    ∧ (∀ v, (∃ l, (l ∉ voids) ∧ mapping !! l = Some v) ↔ 0 ≤ v < nvc)
    ∧ (map_img mapping : gset Z) = list_to_set (seqZ 0 nc)
    ∧ (∀ l v, mapping !! l = Some v → 0 ≤ v < nc).
Proof.
  intros. pose proof (implicit_mapping_well_formed_aux) as Haux.
  eapply Haux; eassumption.
Qed.

Lemma implicit_mapping_well_formed_witness :
  (NoDup [3; 5] ∧ ∀ l, l ∈ [3; 5] → 0 ≤ l < 4 + Z.of_nat (length [3; 5]))
  ∧ ∃ mapping : gmap Z Z,
      _get_mapping set_difference_sorted (implicit_attrs 4 [3; 5]) = Ok mapping
      ∧ nclasses (implicit_attrs 4 [3; 5]) = Ok 5
      ∧ (map_img mapping : gset Z) = list_to_set (seqZ 0 5).
Proof.
  assert (Hnd : NoDup [3; 5]).
  { apply NoDup_cons. split; [|apply NoDup_singleton].
    by intros ?%list_elem_of_singleton. }
  assert (Hrange : ∀ l, l ∈ [3; 5] → 0 ≤ l < 4 + Z.of_nat (length [3; 5])).
  { intros l [->|Hl]%elem_of_cons; [simpl; lia|].
    apply list_elem_of_singleton in Hl as ->. simpl. lia. }
  split; [by split|].
  destruct (implicit_mapping_well_formed set_difference_sorted 4 [3; 5]
              Hnd Hrange) as (mapping & nc & Hmap & Hnc & _ & Himg & _).
  exists mapping. split; [exact Hmap|].
  injection Hnc as <-. by split.
Defined.

(** X3: without [GTclasses], a void label outside
    [0 .. non_void_nclasses + |void_labels| - 1] gets no entry in the
    mapping, and some label that is not void is then mapped to
    [non_void_nclasses], the value of the void class. *)
Theorem implicit_mapping_misplaced_void set_iter nvc voids l0 :
  0 ≤ nvc → l0 ∈ voids →
  ¬ (0 ≤ l0 < nvc + Z.of_nat (length voids)) →
  ∃ (mapping : gmap Z Z) (l : Z),
    _get_mapping set_iter (implicit_attrs nvc voids) = Ok mapping
    ∧ mapping !! l0 = None
    ∧ (l ∉ voids) ∧ mapping !! l = Some nvc.
Proof.
  intros Hnvc Hl0 Hout.
  destruct (implicit_mapping_ranks_aux set_iter nvc voids)
    as (mapping & Hmap & _ & Himg & _ & _).
  pose proof (non_void_labels_surplus nvc voids l0 Hnvc Hl0 Hout) as Hk.
  destruct (proj2 (Himg nvc)) as (l & Hl & Hv); [lia|].
  exists mapping, l. split; [done|]. split; [|by split].
  rewrite get_mapping_implicit_eq in Hmap. injection Hmap as <-.
  apply walk_labels_lookup_None. rewrite elem_of_seqZ. lia.
Qed.

Lemma implicit_mapping_misplaced_void_witness :
  (0 ≤ 2 ∧ 7 ∈ [7] ∧ ¬ (0 ≤ 7 < 2 + Z.of_nat (length [7])))
  ∧ ∃ (mapping : gmap Z Z) (l : Z),
      _get_mapping set_difference_sorted (implicit_attrs 2 [7]) = Ok mapping
      ∧ mapping !! 7 = None
      ∧ (l ∉ [7]) ∧ mapping !! l = Some 2.
Proof.
  assert (H7 : (7 : Z) ∈ [7]) by left.
  assert (Hout : ¬ (0 ≤ 7 < 2 + Z.of_nat (length [7]))) by (simpl; lia).
  split; [split; [lia|by split]|].
  apply (implicit_mapping_misplaced_void set_difference_sorted 2 [7] 7
           ltac:(lia) H7 Hout).
Defined.

(** ** Relabelling in [fetch_from_dataset] *)




Lemma sorted_keys_spec {V} (mapping : gmap Z V) :
  StronglySorted Z.le (sorted_keys mapping)
  ∧ NoDup (sorted_keys mapping)
  ∧ ∀ k, k ∈ sorted_keys mapping ↔ is_Some (mapping !! k).
Proof.
  unfold sorted_keys. split; [|split].
  - apply StronglySorted_merge_sort; apply _.
  - rewrite merge_sort_Permutation. apply NoDup_elements.
  - intros k. rewrite merge_sort_Permutation, elem_of_elements.
    apply elem_of_dom.
Qed.










(** ** Inverse mapping and mask labels *)

Lemma dict_inverse_snoc items kv :
  dict_inverse (items ++ [kv]) = <[kv.2 := kv.1]> (dict_inverse items).
Proof. unfold dict_inverse. by rewrite foldl_app. Qed.

Lemma dict_inverse_lookup items v k :
  dict_inverse items !! v = Some k → (k, v) ∈ items.
Proof.
  induction items as [|[k' v'] items IH] using rev_ind.
  - unfold dict_inverse. simpl. by rewrite lookup_empty.
  - rewrite dict_inverse_snoc. simpl.
    destruct (decide (v' = v)) as [->|Hne].
    + rewrite lookup_insert_eq. intros [= ->].
      apply elem_of_app. right. left.
    + rewrite lookup_insert_ne by done. intros Hv.
      apply elem_of_app. left. by apply IH.
Qed.

Lemma dict_inverse_is_Some items v k :
  (k, v) ∈ items → is_Some (dict_inverse items !! v).
Proof.
  induction items as [|[k' v'] items IH] using rev_ind.
  - by intros ?%elem_of_nil.
  - rewrite dict_inverse_snoc. simpl.
    destruct (decide (v' = v)) as [->|Hne].
    + rewrite lookup_insert_eq. by eexists.
    + rewrite lookup_insert_ne by done.
      intros [Hin|Hin%list_elem_of_singleton]%elem_of_app; [by apply IH|].
      congruence.
Qed.

Lemma inverse_mapping_round_trip_aux set_iter dict_iter cls
    (mapping : gmap Z Z) :
  _get_mapping set_iter cls = Ok mapping →
  items_iter mapping (dict_iter mapping) →
  ∃ inv : gmap Z Z,
    _get_inv_mapping set_iter dict_iter cls = Ok inv
    ∧ (∀ v k, inv !! v = Some k → mapping !! k = Some v)
    ∧ (∀ k v, mapping !! k = Some v →
         ∃ k', inv !! v = Some k' ∧ mapping !! k' = Some v)
    ∧ (∀ k v, mapping !! k = Some v →
         (∀ k', mapping !! k' = Some v → k' = k) → inv !! v = Some k)
    ∧ (dom inv : gset Z) = map_img mapping.
Proof.
  intros Hmap Hitems. unfold items_iter in Hitems.
  exists (dict_inverse (dict_iter mapping)).
  assert (Hback : ∀ v k, dict_inverse (dict_iter mapping) !! v = Some k →
                         mapping !! k = Some v).
  { intros v k Hv%dict_inverse_lookup.
    rewrite Hitems in Hv. by apply elem_of_map_to_list in Hv. }
  assert (Hforth : ∀ k v, mapping !! k = Some v →
            ∃ k', dict_inverse (dict_iter mapping) !! v = Some k'
                  ∧ mapping !! k' = Some v).
  { intros k v Hk. apply elem_of_map_to_list in Hk. rewrite <- Hitems in Hk.
    destruct (dict_inverse_is_Some _ _ _ Hk) as [k' Hk'].
    exists k'. split; [done|]. by apply Hback. }
  split; [unfold _get_inv_mapping; by rewrite Hmap|].
  split; [exact Hback|]. split; [exact Hforth|]. split.
  - intros k v Hk Huniq. destruct (Hforth k v Hk) as (k' & Hk' & Hm).
    by rewrite <- (Huniq k' Hm).
  - apply set_eq. intros v. rewrite elem_of_dom, elem_of_map_img. split.
    + intros [k Hk]. exists k. by apply Hback.
    + intros [k Hk]. destruct (Hforth k v Hk) as (k' & Hk' & _). by eexists.
Qed.

(** X6: whatever the order in which the items of the mapping are iterated,
    every entry [v: k] of the inverse mapping is a label [k] that the
    mapping sends to [v]; the inverse has an entry for every value of the
    mapping, and it is the original label wherever no other label has the
    same image; so mapping, inverting and mapping again gives the first
    image. *)
Theorem inverse_mapping_round_trip set_iter dict_iter cls
    (mapping : gmap Z Z) :
  _get_mapping set_iter cls = Ok mapping →
  items_iter mapping (dict_iter mapping) →
  ∃ inv : gmap Z Z,
    _get_inv_mapping set_iter dict_iter cls = Ok inv
    ∧ (∀ v k, inv !! v = Some k → mapping !! k = Some v)
    ∧ (∀ k v, mapping !! k = Some v →
         ∃ k', inv !! v = Some k' ∧ mapping !! k' = Some v)
    ∧ (∀ k v, mapping !! k = Some v →
         (∀ k', mapping !! k' = Some v → k' = k) → inv !! v = Some k)
    ∧ (dom inv : gset Z) = map_img mapping.
Proof. apply inverse_mapping_round_trip_aux. Qed.

Lemma inverse_mapping_round_trip_witness :
  (_get_mapping set_difference_sorted (implicit_attrs 4 [3; 5])
   = Ok (list_to_map [(0, 0); (1, 1); (2, 2); (3, 4); (4, 3); (5, 4)])
   ∧ items_iter
       (list_to_map [(0, 0); (1, 1); (2, 2); (3, 4); (4, 3); (5, 4)])
       (map_to_list
          (list_to_map [(0, 0); (1, 1); (2, 2); (3, 4); (4, 3); (5, 4)])))
  ∧ ∃ inv : gmap Z Z,
      _get_inv_mapping set_difference_sorted map_to_list
        (implicit_attrs 4 [3; 5]) = Ok inv
      ∧ inv !! 3 = Some 4
      ∧ (dom inv : gset Z)
        = map_img (list_to_map [(0, 0); (1, 1); (2, 2); (3, 4); (4, 3); (5, 4)]
                   : gmap Z Z).
Proof.
  split; [split; [reflexivity|apply Permutation_refl]|].
  destruct (inverse_mapping_round_trip set_difference_sorted map_to_list
              (implicit_attrs 4 [3; 5])
              (list_to_map [(0, 0); (1, 1); (2, 2); (3, 4); (4, 3); (5, 4)])
              eq_refl (Permutation_refl _))
    as (inv & Hinv & _ & _ & _ & Hdom).
  exists inv. split; [exact Hinv|]. split; [|exact Hdom].
  vm_compute in Hinv. injection Hinv as <-. reflexivity.
Defined.

Lemma list_comprehension_Ok {A B} (f : A → result B) (P : A → B → Prop) l :
  (∀ x, x ∈ l → ∃ y, f x = Ok y ∧ P x y) →
  ∃ ys, list_comprehension f l = Ok ys ∧ Forall2 P l ys.
Proof.
  induction l as [|x l IH]; intros Hf.
  - exists []. by split.
  - destruct (Hf x) as (y & Hy & HP); [left|].
    destruct IH as (ys & Hys & Hall); [intros x' Hx'; apply Hf; by right|].
    exists (y :: ys). simpl. rewrite Hy, Hys. split; [done|by constructor].
Qed.

Lemma list_comprehension_Raise {A B} (f : A → result B) e l x :
  (∀ x', is_Ok (f x') ∨ f x' = Raise e) →
  x ∈ l → f x = Raise e →
  list_comprehension f l = Raise e.
Proof.
  intros Hf Hx Hfx. induction l as [|x' l IH]; [by apply elem_of_nil in Hx|].
  simpl. destruct (Hf x') as [[y Hy]|Hraise]; [|by rewrite Hraise].
  rewrite Hy. simpl.
  apply elem_of_cons in Hx as [->|Hx]; [congruence|].
  by rewrite (IH Hx).
Qed.

(** X7: when [_mask_labels] names every original label of the mapping,
    [get_mask_labels] returns one name per value of the mapping, in
    ascending order of the values, each the name of an original label
    mapped to that value; without [_mask_labels], or with an empty one, it
    returns the empty list. *)
Theorem get_mask_labels_spec set_iter dict_iter cls
    (mapping : gmap Z Z) (ml : gmap Z string) :
  _get_mapping set_iter cls = Ok mapping →
  items_iter mapping (dict_iter mapping) →
  ml ≠ ∅ →
  (∀ k, is_Some (mapping !! k) → is_Some (ml !! k)) →
  (∃ (names : list string) (classes : list Z),
     get_mask_labels set_iter dict_iter cls (Some ml) = Ok names
     ∧ StronglySorted Z.le classes ∧ NoDup classes
     ∧ (∀ v, v ∈ classes ↔ v ∈ (map_img mapping : gset Z))
     ∧ Forall2 (λ v name, ∃ k, mapping !! k = Some v ∧ ml !! k = Some name)
         classes names)
  ∧ get_mask_labels set_iter dict_iter cls None = Ok []
  ∧ get_mask_labels set_iter dict_iter cls (Some ∅) = Ok [].
Proof.
  intros Hmap Hitems Hml Hnamed.
  destruct (inverse_mapping_round_trip_aux set_iter dict_iter cls mapping
              Hmap Hitems) as (inv & Hinv & Hback & _ & _ & Hdom).
  destruct (sorted_keys_spec inv) as (Hsorted & Hnd & Hin).
  split; [|split; reflexivity].
  destruct (list_comprehension_Ok
    (λ k, orig ← dict_getitem inv k ; dict_getitem ml orig)
    (λ v name, ∃ k, mapping !! k = Some v ∧ ml !! k = Some name)
    (sorted_keys inv)) as (names & Hnames & Hall).
  { intros v [k Hk]%Hin. pose proof (Hback _ _ Hk) as Hkv.
    destruct (Hnamed k) as [name Hname]; [by eexists|].
    exists name. split; [|by exists k].
    unfold dict_getitem. rewrite Hk. simpl. by rewrite Hname. }
  exists names, (sorted_keys inv).
  split; [|split; [done|split; [done|split; [|done]]]].
  - unfold get_mask_labels. simpl.
    rewrite bool_decide_eq_false_2 by done. rewrite Hinv. exact Hnames.
  - intros v. rewrite Hin, <- Hdom. symmetry. apply elem_of_dom.
Qed.

(** X8: when the only original label of some class has no entry in a
    non-empty [_mask_labels], [get_mask_labels] raises [KeyError]. *)
Theorem get_mask_labels_KeyError set_iter dict_iter cls
    (mapping : gmap Z Z) (ml : gmap Z string) k v :
  _get_mapping set_iter cls = Ok mapping →
  items_iter mapping (dict_iter mapping) →
  ml ≠ ∅ →
  mapping !! k = Some v →
  (∀ k', mapping !! k' = Some v → k' = k) →
  ml !! k = None →
  get_mask_labels set_iter dict_iter cls (Some ml) = Raise KeyError.
Proof.
  intros Hmap Hitems Hml Hk Huniq Hname.
  destruct (inverse_mapping_round_trip_aux set_iter dict_iter cls mapping
              Hmap Hitems) as (inv & Hinv & _ & _ & Hone & _).
  pose proof (Hone k v Hk Huniq) as Hv.
  destruct (sorted_keys_spec inv) as (_ & _ & Hin).
  unfold get_mask_labels. simpl.
  rewrite bool_decide_eq_false_2 by done. rewrite Hinv. simpl.
  apply (list_comprehension_Raise _ _ _ v).
  - intros v'. unfold dict_getitem.
    destruct (inv !! v') as [k'|]; simpl; [|by right].
    destruct (ml !! k'); [left; by eexists|by right].
  - apply Hin. by eexists.
  - unfold dict_getitem. rewrite Hv. simpl. by rewrite Hname.
Qed.

Lemma get_mask_labels_KeyError_witness :
  get_mask_labels set_difference_sorted map_to_list
    (explicit_attrs 5 [2; 99] [0; 2; 5; 9; 11; 12; 99])
    (Some (delete 9 docstring_mask_labels)) = Raise KeyError
  ∧ get_mask_labels set_difference_sorted map_to_list
      (explicit_attrs 5 [2; 99] [0; 2; 5; 9; 11; 12; 99])
      (Some docstring_mask_labels)
    = Ok ["sky"; "road"; "car"; "tree"; "sign"; "void"].
Proof.
  split; [|vm_compute; reflexivity].
  apply (get_mask_labels_KeyError set_difference_sorted map_to_list
           (explicit_attrs 5 [2; 99] [0; 2; 5; 9; 11; 12; 99])
           docstring_mapping (delete 9 docstring_mask_labels) 9 2).
  - vm_compute. reflexivity.
  - apply Permutation_refl.
  - intros Hempty. apply (f_equal (λ m, m !! 0)) in Hempty.
    vm_compute in Hempty. discriminate.
  - reflexivity.
  - assert (Hall : map_Forall (λ k' v' : Z, v' = 2 → k' = 9) docstring_mapping)
      by (apply (bool_decide_unpack _); vm_compute; exact I).
    intros k' Hk'. by apply (Hall k' 2).
  - reflexivity.
Defined.

Lemma get_mask_labels_spec_witness :
  (∃ (names : list string) (classes : list Z),
     get_mask_labels set_difference_sorted map_to_list
       (explicit_attrs 5 [2; 99] [0; 2; 5; 9; 11; 12; 99])
       (Some docstring_mask_labels) = Ok names
     ∧ StronglySorted Z.le classes ∧ NoDup classes
     ∧ (∀ v, v ∈ classes ↔ v ∈ (map_img docstring_mapping : gset Z))
     ∧ Forall2 (λ v name, ∃ k, docstring_mapping !! k = Some v
                               ∧ docstring_mask_labels !! k = Some name)
         classes names)
  ∧ get_mask_labels set_difference_sorted map_to_list
      (explicit_attrs 5 [2; 99] [0; 2; 5; 9; 11; 12; 99]) None = Ok []
  ∧ get_mask_labels set_difference_sorted map_to_list
      (explicit_attrs 5 [2; 99] [0; 2; 5; 9; 11; 12; 99]) (Some ∅) = Ok [].
Proof.
  apply (get_mask_labels_spec set_difference_sorted map_to_list
           (explicit_attrs 5 [2; 99] [0; 2; 5; 9; 11; 12; 99])
           docstring_mapping docstring_mask_labels).
  - vm_compute. reflexivity.
  - apply Permutation_refl.
  - intros Hempty. apply (f_equal (λ m, m !! 0)) in Hempty.
    vm_compute in Hempty. discriminate.
  - assert (Hall : map_Forall (λ k _ : Z, is_Some (docstring_mask_labels !! k))
                     docstring_mapping).
    { apply map_Forall_to_list. vm_compute.
      repeat (constructor; [by eexists|]). constructor. }
    intros k [v Hk]. exact (Hall k v Hk).
Defined.

(** ** Sequence windowing: errors, shape and content of the windows *)

Lemma subset_sequences_non_empty seq_length overlap prefix names :
  seq_length ≠ overlap → names ≠ [] →
  is_Ok (subset_sequences seq_length overlap prefix names).
Proof.
  intros Hstep Hne. unfold subset_sequences, stride1_sequences, extended_names.
  destruct names as [|first rest]; [done|].
  destruct (last (first :: rest)) as [lst|] eqn:Hlast;
    [|by apply last_None in Hlast].
  unfold py_last. rewrite Hlast. simpl. unfold py_slice_step.
  rewrite bool_decide_eq_false_2 by lia.
  case_bool_decide; by eexists.
Qed.

Lemma subset_sequences_empty seq_length overlap prefix :
  subset_sequences seq_length overlap prefix [] = Raise IndexError.
Proof. reflexivity. Qed.

Lemma subset_sequences_zero_step seq_length prefix names :
  names ≠ [] →
  subset_sequences seq_length seq_length prefix names
  = Raise (ValueError "slice step cannot be zero").
Proof.
  intros Hne. unfold subset_sequences, stride1_sequences, extended_names.
  destruct names as [|first rest]; [done|].
  destruct (last (first :: rest)) as [lst|] eqn:Hlast;
    [|by apply last_None in Hlast].
  unfold py_last. rewrite Hlast. simpl. unfold py_slice_step.
  by rewrite bool_decide_eq_true_2 by lia.
Qed.

Lemma fill_names_sequences_errors_aux seq_length overlap
    (names_per_subset : list (string * list string)) :
  (seq_length ≠ overlap →
   Forall (λ item, item.2 ≠ []) names_per_subset →
   ∃ sequences,
     _fill_names_sequences seq_length overlap names_per_subset = Ok sequences
     ∧ Forall2 (λ item sq, sq.1 = item.1
                  ∧ subset_sequences seq_length overlap item.1 item.2
                    = Ok sq.2) names_per_subset sequences)
  ∧ (seq_length ≠ overlap →
     Exists (λ item, item.2 = []) names_per_subset →
     _fill_names_sequences seq_length overlap names_per_subset
     = Raise IndexError)
  ∧ (seq_length = overlap →
     ∀ prefix names rest,
       names_per_subset = (prefix, names) :: rest → names ≠ [] →
       _fill_names_sequences seq_length overlap names_per_subset
       = Raise (ValueError "slice step cannot be zero")).
Proof.
  split; [|split].
  - intros Hstep Hall.
    induction Hall as [|[prefix names] rest Hne _ (sequences & Hrest & Hall2)].
    + exists []. by split.
    + destruct (subset_sequences_non_empty seq_length overlap prefix names
                  Hstep Hne) as [sq Hsq].
      exists ((prefix, sq) :: sequences). simpl. rewrite Hsq, Hrest.
      split; [done|]. by constructor.
  - intros Hstep Hex.
    induction names_per_subset as [|[prefix names] rest IH];
      [by apply Exists_nil in Hex|].
    simpl. destruct names as [|first names'].
    + by rewrite subset_sequences_empty.
    + destruct (subset_sequences_non_empty seq_length overlap prefix
                  (first :: names') Hstep ltac:(done)) as [sq Hsq].
      rewrite Hsq. simpl.
      apply Exists_cons in Hex as [Hex|Hex]; [done|].
      by rewrite (IH Hex).
  - intros <- prefix names rest -> Hne. simpl.
    by rewrite subset_sequences_zero_step.
Qed.

(** X9: [_fill_names_sequences] returns the subsets with their sequences,
    in the order of the names, when every subset has a name and
    [seq_length] differs from [overlap]; it raises [IndexError] as soon as a
    subset has no name, and [ValueError], for the zero step of the slice,
    when [overlap] equals [seq_length] and the first subset has a name. *)
Theorem fill_names_sequences_errors seq_length overlap
    (names_per_subset : list (string * list string)) :
  (seq_length ≠ overlap →
   Forall (λ item, item.2 ≠ []) names_per_subset →
   ∃ sequences,
     _fill_names_sequences seq_length overlap names_per_subset = Ok sequences
     ∧ Forall2 (λ item sq, sq.1 = item.1
                  ∧ subset_sequences seq_length overlap item.1 item.2
                    = Ok sq.2) names_per_subset sequences)
  ∧ (seq_length ≠ overlap →
     Exists (λ item, item.2 = []) names_per_subset →
     _fill_names_sequences seq_length overlap names_per_subset
     = Raise IndexError)
  ∧ (seq_length = overlap →
     ∀ prefix names rest,
       names_per_subset = (prefix, names) :: rest → names ≠ [] →
       _fill_names_sequences seq_length overlap names_per_subset
       = Raise (ValueError "slice step cannot be zero")).
Proof.
  exact (fill_names_sequences_errors_aux seq_length overlap names_per_subset).
Qed.

Lemma stride_from_Forall {A} (P : A → Prop) step skip (l : list A) :
  Forall P l → Forall P (stride_from step skip l).
Proof.
  intros Hall. revert skip.
  induction Hall as [|x l Hx _ IH]; intros skip; simpl; [constructor|].
  destruct skip; [constructor|]; auto.
Qed.

Lemma py_slice_step_Forall {A} (P : A → Prop) (l out : list A) step :
  Forall P l → py_slice_step l step = Ok out → Forall P out.
Proof.
  intros Hall. unfold py_slice_step.
  case_bool_decide; [done|]. case_bool_decide; intros [= <-].
  - by apply stride_from_Forall.
  - apply stride_from_Forall. by apply Forall_reverse.
Qed.

Lemma overlap_grouper_shape iterable n prefix :
  Forall (λ w : window,
            Z.of_nat (length w) = n
            ∧ Forall (λ pn, pn.1 = prefix ∧ pn.2 ∈ iterable) w)
    (overlap_grouper iterable n prefix).
Proof.
  induction iterable as [|x rest IH]; [constructor|].
  cbn [overlap_grouper]. case_bool_decide as Hn; [|constructor].
  constructor.
  - split.
    + rewrite length_fmap, length_take. lia.
    + apply Forall_fmap, Forall_forall. intros name Hname. simpl.
      split; [done|]. apply elem_of_take in Hname as (i & Hi & _).
      by eapply list_elem_of_lookup_2.
  - eapply Forall_impl; [exact IH|]. intros w [Hlen Hw]. split; [done|].
    eapply Forall_impl; [exact Hw|]. intros pn [? ?]. split; [done|by right].
Qed.

Lemma extended_names_elem_of seq_length names extended name :
  extended_names seq_length names = Ok extended →
  name ∈ extended → name ∈ names.
Proof.
  unfold extended_names. destruct names as [|first rest]; [done|].
  destruct (last (first :: rest)) as [lst|] eqn:Hlast;
    [|by apply last_None in Hlast].
  unfold py_last. rewrite Hlast. intros [= <-].
  unfold py_repeat. rewrite elem_of_app, !elem_of_cons, elem_of_app.
  intros [Hin|[Hin|[Hin|Hin]]]; [|by left|by right|].
  - apply elem_of_replicate in Hin as [-> _]. by left.
  - apply elem_of_replicate in Hin as [-> _].
    by apply elem_of_cons, last_Some_elem_of.
Qed.

(** X10: in what [_fill_names_sequences] returns, the sequences of a subset
    stay under the key of the subset, every window has [seq_length] names,
    and every name of a window is tagged with the key and is a name of that
    subset. *)
Theorem fill_names_sequences_shape seq_length overlap
    (names_per_subset : list (string * list string)) sequences :
  _fill_names_sequences seq_length overlap names_per_subset = Ok sequences →
  Forall2 (λ (item : string * list string) (sq : string * list window),
             sq.1 = item.1
             ∧ Forall (λ w : window,
                         Z.of_nat (length w) = seq_length
                         ∧ Forall (λ pn, pn.1 = item.1 ∧ pn.2 ∈ item.2) w)
                 sq.2)
    names_per_subset sequences.
Proof.
  revert sequences.
  induction names_per_subset as [|[prefix names] rest IH]; intros sequences.
  - intros [= <-]. constructor.
  - simpl.
    destruct (subset_sequences seq_length overlap prefix names)
      as [sq|] eqn:Hsq; [|done]. simpl.
    destruct (_fill_names_sequences seq_length overlap rest)
      as [others|] eqn:Hrest; [|done]. simpl.
    intros [= <-]. constructor; [|by apply IH]. split; [done|]. simpl.
    unfold subset_sequences, stride1_sequences in Hsq.
    destruct (extended_names seq_length names) as [extended|] eqn:Hext;
      [|done]. simpl in Hsq.
    eapply py_slice_step_Forall; [|exact Hsq].
    eapply Forall_impl; [apply overlap_grouper_shape|].
    intros w [Hlen Hw]. split; [done|].
    eapply Forall_impl; [exact Hw|]. intros pn [? Hin]. split; [done|].
    by eapply extended_names_elem_of.
Qed.

Lemma fill_names_sequences_shape_witness :
  _fill_names_sequences 3 1 [("A", five_frames)]
  = Ok [("A", [[("A", "f0"); ("A", "f0"); ("A", "f1")];
               [("A", "f1"); ("A", "f2"); ("A", "f3")];
               [("A", "f3"); ("A", "f4"); ("A", "f4")]])]
  ∧ Forall2 (λ (item : string * list string) (sq : string * list window),
               sq.1 = item.1
               ∧ Forall (λ w : window,
                           Z.of_nat (length w) = 3
                           ∧ Forall (λ pn, pn.1 = item.1 ∧ pn.2 ∈ item.2) w)
                   sq.2)
      [("A", five_frames)]
      [("A", [[("A", "f0"); ("A", "f0"); ("A", "f1")];
              [("A", "f1"); ("A", "f2"); ("A", "f3")];
              [("A", "f3"); ("A", "f4"); ("A", "f4")]])].
Proof.
  split; [reflexivity|].
  apply (fill_names_sequences_shape 3 1 [("A", five_frames)]). reflexivity.
Defined.

Lemma overlap_grouper_lookup iterable n prefix i :
  1 ≤ n → (i + Z.to_nat n ≤ length iterable)%nat →
  overlap_grouper iterable n prefix !! i
  = Some (pair prefix <$> take (Z.to_nat n) (drop i iterable)).
Proof.
  intros Hn. revert i. induction iterable as [|x rest IH]; intros i Hi.
  - simpl in Hi. lia.
  - cbn [overlap_grouper].
    rewrite bool_decide_eq_true_2 by (simpl length in *; lia).
    destruct i as [|i]; [done|].
    simpl. apply IH. simpl in Hi. lia.
Qed.

Lemma extended_names_lookup seq_length names extended t :
  0 ≤ seq_length → extended_names seq_length names = Ok extended →
  (t < length extended)%nat →
  extended !! t
  = names !! clamp_index (length names) (Z.of_nat t - seq_length `div` 2).
Proof.
  intros Hs. unfold extended_names.
  destruct names as [|first rest]; [done|].
  destruct (last (first :: rest)) as [lst|] eqn:Hlast;
    [|by apply last_None in Hlast].
  unfold py_last. rewrite Hlast.
  assert (Hfirst : (first :: rest) !! O = Some first) by done.
  change (py_first (first :: rest)) with (Ok (A := string) first).
  remember (first :: rest) as names eqn:Hnames.
  assert (Hlen : (1 ≤ length names)%nat) by (subst names; simpl; lia).
  clear Hnames. intros [= <-].
  assert (Hk : 0 ≤ seq_length `div` 2) by (apply Z.div_pos; lia).
  unfold py_repeat, clamp_index.
  set (k := Z.to_nat (seq_length `div` 2)).
  rewrite !length_app, !length_replicate. intros Ht.
  destruct (decide (t < k)%nat) as [Hlt|Hge].
  - rewrite lookup_app_l by (rewrite length_replicate; lia).
    rewrite lookup_replicate_2 by lia.
    replace (Z.to_nat _) with O by lia. done.
  - rewrite lookup_app_r by (rewrite length_replicate; lia).
    rewrite length_replicate.
    destruct (decide (t - k < length names)%nat) as [Hin|Hout].
    + rewrite lookup_app_l by lia. f_equal. lia.
    + rewrite lookup_app_r by lia.
      rewrite lookup_replicate_2 by lia.
      rewrite last_lookup in Hlast. rewrite <- Hlast. f_equal. lia.
Qed.

(** X11: for [seq_length >= 1] and a subset that has names, the [j]-th name
    of the [i]-th stride-1 window is the name at position
    [i + j - seq_length // 2] of the subset, positions before the first name
    and after the last one taken as the first and the last; so for an odd
    [seq_length] the middle of the [i]-th window is the [i]-th name. *)
Theorem stride1_sequences_content seq_length prefix names :
  1 ≤ seq_length → names ≠ [] →
  ∃ sequences,
    stride1_sequences seq_length prefix names = Ok sequences
    ∧ (∀ i w j, sequences !! i = Some w → (j < Z.to_nat seq_length)%nat →
         ∃ name,
           names !! clamp_index (length names)
                      (Z.of_nat i + Z.of_nat j - seq_length `div` 2)
           = Some name
           ∧ w !! j = Some (prefix, name))
    ∧ (seq_length `mod` 2 = 1 →
       ∀ i name, names !! i = Some name →
         ∃ w, sequences !! i = Some w
              ∧ w !! Z.to_nat (seq_length `div` 2) = Some (prefix, name)).
Proof.
  intros Hs Hne.
  destruct (extended_names_length seq_length names Hs Hne)
    as (extended & Hext & Hlen).
  assert (Hk : 0 ≤ seq_length `div` 2) by (apply Z.div_pos; lia).
  assert (Hcount : Z.of_nat (length (overlap_grouper extended seq_length prefix))
                   = Z.of_nat (length extended) - seq_length + 1).
  { rewrite overlap_grouper_length by done.
    pose proof (Z.div_mod seq_length 2 ltac:(lia)).
    pose proof (Z.mod_pos_bound seq_length 2 ltac:(lia)).
    destruct names; [done|]. simpl length in *. lia. }
  assert (Hwin : ∀ i w j,
    overlap_grouper extended seq_length prefix !! i = Some w →
    (j < Z.to_nat seq_length)%nat →
    w !! j = pair prefix <$> (extended !! (i + j)%nat)
    ∧ (i + j < length extended)%nat).
  { intros i w j Hi Hj. pose proof (lookup_lt_Some _ _ _ Hi) as Hilt.
    rewrite overlap_grouper_lookup in Hi by lia. injection Hi as <-.
    split; [|lia]. unfold window.
    rewrite list_lookup_fmap, lookup_take_lt, lookup_drop by lia. done. }
  exists (overlap_grouper extended seq_length prefix).
  split; [unfold stride1_sequences; by rewrite Hext|]. split.
  - intros i w j Hi Hj. destruct (Hwin i w j Hi Hj) as [Hw Hij].
    rewrite (extended_names_lookup seq_length names extended (i + j))
      in Hw by (done || lia).
    replace (Z.of_nat (i + j)) with (Z.of_nat i + Z.of_nat j) in Hw by lia.
    destruct (names !! clamp_index _ _) as [name|] eqn:Hname.
    + exists name. by split.
    + exfalso. apply lookup_ge_None in Hname. unfold clamp_index in Hname.
      destruct names; [done|]. simpl length in *. lia.
  - intros Hodd i name Hi. pose proof (lookup_lt_Some _ _ _ Hi) as Hilt.
    pose proof (Z.div_mod seq_length 2 ltac:(lia)) as Hdm.
    destruct (lookup_lt_is_Some_2
                (overlap_grouper extended seq_length prefix) i) as [w Hw];
      [lia|].
    exists w. split; [done|].
    destruct (Hwin i w (Z.to_nat (seq_length `div` 2)) Hw ltac:(lia))
      as [Hmid Hij].
    rewrite Hmid.
    rewrite (extended_names_lookup seq_length names extended) by (done || lia).
    replace (clamp_index (length names) _) with i
      by (unfold clamp_index; lia).
    by rewrite Hi.
Qed.

Lemma stride1_sequences_content_witness :
  (1 ≤ 3 ∧ five_frames ≠ [])
  ∧ ∃ sequences,
      stride1_sequences 3 "A" five_frames = Ok sequences
      ∧ ∀ i name, five_frames !! i = Some name →
          ∃ w, sequences !! i = Some w
               ∧ w !! Z.to_nat (3 `div` 2) = Some ("A", name).
Proof.
  split; [split; [lia|done]|].
  destruct (stride1_sequences_content 3 "A" five_frames ltac:(lia)
              ltac:(done)) as (sequences & Hseq & _ & Hmid).
  exists sequences. split; [exact Hseq|]. by apply Hmid.
Defined.

(** ** Batch scheduling: what an epoch holds *)




(** X13: without a cap per subset ([seq_per_video = 0]) and with
    [batch_size >= 1], the batches of a rebuilt epoch hold every window of
    every subset exactly once: in the order of the subsets when the epoch is
    not shuffled, in some order when it is. *)
Theorem epoch_holds_every_window rnd p ep shuffle :
  valid_random rnd → seq_per_video p = 0 → 1 ≤ batch_size p →
  ∃ ep',
    _fill_names_batches rnd p ep shuffle = Ok ep'
    ∧ concat (group_windows <$> names_batches ep')
      ≡ₚ concat (names_sequences ep).*2
    ∧ (shuffle = false →
       concat (group_windows <$> names_batches ep')
       = concat (names_sequences ep).*2)
    ∧ nsamples ep' = length (concat (names_sequences ep).*2).
Proof.
  intros Hvalid Hspv Hb.
  destruct (fill_names_batches_Ok rnd p ep shuffle Hvalid)
    as (picks & calls & flat & Hsel & _ & Hperm & Hflat & Hfill).
  rewrite Hspv, select_sequences_uncapped in Hsel. injection Hsel as <- <-.
  destruct (grouper_windows flat (batch_size p) Hb) as [Hwin _].
  eexists. split; [exact Hfill|]. cbn [names_batches nsamples].
  rewrite Hwin. split; [done|]. split; [by intros ->%Hflat|].
  by rewrite (Permutation_length Hperm).
Qed.

Lemma epoch_holds_every_window_witness :
  (valid_random identity_random
   ∧ seq_per_video (save_params args_batch_size_4) = 0
   ∧ 1 ≤ batch_size (save_params args_batch_size_4))
  ∧ ∃ ep',
      _fill_names_batches identity_random (save_params args_batch_size_4)
        (unfilled_epoch two_subsets) false = Ok ep'
      ∧ concat (group_windows <$> names_batches ep')
        = concat two_subsets.*2
      ∧ nsamples ep' = 8%nat.
Proof.
  split; [split; [apply identity_random_valid|split; [done|simpl; lia]]|].
  destruct (epoch_holds_every_window identity_random
              (save_params args_batch_size_4) (unfilled_epoch two_subsets)
              false identity_random_valid eq_refl ltac:(simpl; lia))
    as (ep' & Hfill & _ & Hsame & Hn).
  exists ep'. split; [exact Hfill|]. split; [by apply Hsame|exact Hn].
Defined.

(** ** The names queue and construction *)

Lemma init_names_queue_loop_spec {Sample} n ep (q : Queues Sample) :
  let k := (n `min` length (names_batches ep))%nat in
  let st := init_names_queue_loop n ep q in
  names_queue st.2 = names_queue q ++ (NamesBatch <$> take k (names_batches ep))
  ∧ names_batches st.1 = drop k (names_batches ep)
  ∧ names_unfinished st.2 = (names_unfinished q + k)%nat
  ∧ data_queue st.2 = data_queue q
  ∧ fetchers_alive st.2 = fetchers_alive q
  ∧ names_sequences st.1 = names_sequences ep
  ∧ nsamples st.1 = nsamples ep ∧ nbatches st.1 = nbatches ep.
Proof.
  revert ep q. induction n as [|n IH]; intros ep q.
  - simpl. rewrite app_nil_r, Nat.add_0_r. by repeat split.
  - cbn [init_names_queue_loop]. unfold names_batches_next.
    destruct (names_batches ep) as [|b rest] eqn:Hbatches.
    + simpl. rewrite Hbatches, app_nil_r, Nat.add_0_r. by repeat split.
    + specialize (IH {| names_sequences := names_sequences ep;
                        nsamples := nsamples ep; nbatches := nbatches ep;
                        names_batches := rest; np_calls := np_calls ep;
                        rng_calls := rng_calls ep |} (names_queue_put q b)).
      cbn [names_batches names_sequences nsamples nbatches] in IH.
      destruct IH as (Hq & Hb & Hu & Hd & Hf & Hs & Hn & Hnb).
      simpl length.
      replace (S n `min` S (length rest))%nat
        with (S (n `min` length rest)) by lia.
      cbn [take drop fmap list_fmap].
      rewrite Hq, Hb, Hu, Hd, Hf, Hs, Hn, Hnb. simpl.
      rewrite <- app_assoc. repeat split; try done; lia.
Qed.

(** X14: [_init_names_queue] moves the next
    [min(queues_size, number of batches left)] batches of the iterator to
    the end of the names queue, in their order, and counts them as
    unfinished tasks; the iterator keeps the batches after them, and nothing
    else changes. *)
Theorem init_names_queue_spec {Sample} p ep (q : Queues Sample) :
  let k := (Z.to_nat (queues_size p) `min` length (names_batches ep))%nat in
  let st := _init_names_queue p ep q in
  names_queue st.2 = names_queue q ++ (NamesBatch <$> take k (names_batches ep))
  ∧ names_batches st.1 = drop k (names_batches ep)
  ∧ names_unfinished st.2 = (names_unfinished q + k)%nat
  ∧ data_queue st.2 = data_queue q
  ∧ fetchers_alive st.2 = fetchers_alive q
  ∧ names_sequences st.1 = names_sequences ep
  ∧ nsamples st.1 = nsamples ep ∧ nbatches st.1 = nbatches ep.
Proof.
  intros k st. subst k st. unfold _init_names_queue.
  apply init_names_queue_loop_spec.
Qed.














(** ** Stepping without threads *)

Lemma fetch_from_dataset_windows {Sample} (load : window → result Sample) g :
  fetch_from_dataset load g = list_comprehension load (group_windows g).
Proof.
  induction g as [|[w|] g IH]; simpl; [done| |done].
  by rewrite IH.
Qed.

Lemma group_windows_app (g1 g2 : index_group) :
  group_windows (g1 ++ g2) = group_windows g1 ++ group_windows g2.
Proof. unfold group_windows. apply omap_app. Qed.

Lemma list_comprehension_first_failure {A B} (f : A → result B) pre x post e :
  (∀ y, y ∈ pre → is_Ok (f y)) → f x = Raise e →
  list_comprehension f (pre ++ x :: post) = Raise e.
Proof.
  intros Hpre Hx. induction pre as [|y pre IH]; simpl.
  - by rewrite Hx.
  - destruct (Hpre y) as [z Hz]; [left|]. rewrite Hz. simpl.
    rewrite IH; [done|]. intros y' Hy'. apply Hpre. by right.
Qed.

(** X18: [fetch_from_dataset] loads the windows of the batch from left to
    right and skips the absent entries, so the padding of the last batch of
    an epoch changes nothing; it returns one sample per window when every
    load succeeds, and raises what the first failing load raises. *)
Theorem fetch_from_dataset_spec {Sample} (load : window → result Sample)
    (g : index_group) :
  (∀ k, fetch_from_dataset load (g ++ replicate k None)
        = fetch_from_dataset load g)
  ∧ fetch_from_dataset load g
    = fetch_from_dataset load (Some <$> group_windows g)
  ∧ ((∀ w, w ∈ group_windows g → is_Ok (load w)) →
     ∃ d, fetch_from_dataset load g = Ok d
          ∧ Forall2 (λ w s, load w = Ok s) (group_windows g) d)
  ∧ (∀ pre w post e,
       g = pre ++ Some w :: post →
       (∀ w', w' ∈ group_windows pre → is_Ok (load w')) →
       load w = Raise e →
       fetch_from_dataset load g = Raise e).
Proof.
  split; [|split; [|split]].
  - intros k. rewrite !fetch_from_dataset_windows, group_windows_app.
    assert (group_windows (replicate k None) = []) as ->.
    { induction k; simpl; done. }
    by rewrite app_nil_r.
  - rewrite !fetch_from_dataset_windows. f_equal.
    unfold group_windows. induction (omap id g) as [|w ws IH]; [done|].
    csimpl. by f_equal.
  - intros Hload. rewrite fetch_from_dataset_windows.
    apply list_comprehension_Ok. intros w Hw.
    destruct (Hload w Hw) as [s Hs]. by exists s.
  - intros pre w post e -> Hpre Hw.
    rewrite fetch_from_dataset_windows, group_windows_app.
    change (group_windows (Some w :: post)) with (w :: group_windows post).
    by apply list_comprehension_first_failure.
Qed.

Lemma step_sync_returns {Sample} (load : window → result Sample) rnd p
    ws sched ep (q : Queues Sample) b rest d :
  use_threads p = false → names_batches ep = b :: rest →
  fetch_from_dataset load b = Ok d →
  _step load rnd p (ws :: sched) (ep, q)
  = Some (Ok (DataBatch d), ((names_batches_next ep).2, q)).
Proof.
  intros Hsync Hb Hd. cbn [_step]. rewrite Hsync.
  unfold step_sync_iter, names_batches_next. cbn [fst snd]. rewrite Hb, Hd.
  done.
Qed.

Lemma names_batches_next_cursor ep b rest :
  names_batches ep = b :: rest →
  names_batches (names_batches_next ep).2 = rest
  ∧ names_sequences (names_batches_next ep).2 = names_sequences ep
  ∧ nsamples (names_batches_next ep).2 = nsamples ep
  ∧ nbatches (names_batches_next ep).2 = nbatches ep.
Proof. intros Hb. unfold names_batches_next. by rewrite Hb. Qed.



(** X20: without threads, a batch whose fetch raises [IOError] is dropped:
    [_step] does not raise, goes through its loop again and returns the
    fetch of the next batch, and the iterator is left after both. *)
Theorem step_sync_skips_IOError {Sample} (load : window → result Sample)
    rnd p ws1 ws2 sched ep (q : Queues Sample) b1 b2 rest e d :
  use_threads p = false →
  names_batches ep = b1 :: b2 :: rest →
  fetch_from_dataset load b1 = Raise e → isinstance_IOError e = true →
  fetch_from_dataset load b2 = Ok d →
  ∃ ep',
    _step load rnd p (ws1 :: ws2 :: sched) (ep, q)
    = Some (Ok (DataBatch d), (ep', q))
    ∧ names_batches ep' = rest
    ∧ names_sequences ep' = names_sequences ep.
Proof.
  intros Hsync Hb He Hio Hd.
  destruct (names_batches_next_cursor ep b1 (b2 :: rest) Hb)
    as (Hrest & Hseq & _).
  destruct (names_batches_next_cursor _ b2 rest Hrest) as (Hrest2 & Hseq2 & _).
  exists (names_batches_next (names_batches_next ep).2).2.
  split; [|split; [done|by rewrite Hseq2]].
  assert (Hfirst : step_sync_iter load rnd p ep
                   = (Continue, (names_batches_next ep).2)).
  { unfold step_sync_iter, names_batches_next. rewrite Hb, He.
    destruct e; try discriminate. done. }
  change (_step load rnd p (ws1 :: ws2 :: sched) (ep, q))
    with (let '(out, st') :=
            if use_threads p
            then step_threaded_iter rnd p (ep, run_fetchers load ws1 q)
            else let '(o, ep') := step_sync_iter load rnd p ep in (o, (ep', q))
          in match out with
             | Done data_batch => Some (Ok data_batch, st')
             | Raised e => Some (Raise e, st')
             | Continue => _step load rnd p (ws2 :: sched) st'
             end).
  rewrite Hsync, Hfirst.
  by apply (step_sync_returns load rnd p ws2 sched _ q b2 rest d).
Qed.

Lemma step_sync_skips_IOError_witness :
  ∃ ep',
    _step load_missing_f0
      identity_random finite_params [[]; []]
      ({| names_sequences := ten_windows; nsamples := 3; nbatches := 3;
          names_batches := [[Some [("A", "f0")]]; [Some [("A", "f1")]];
                            [Some [("A", "f2")]]];
          np_calls := 0; rng_calls := 0 |}, no_queues)
    = Some (Ok (DataBatch [()]), (ep', no_queues))
    ∧ names_batches ep' = [[Some [("A", "f2")]]].
Proof.
  destruct (step_sync_skips_IOError
              load_missing_f0
              identity_random finite_params [] [] []
              {| names_sequences := ten_windows; nsamples := 3;
                 nbatches := 3;
                 names_batches := [[Some [("A", "f0")]]; [Some [("A", "f1")]];
                                   [Some [("A", "f2")]]];
                 np_calls := 0; rng_calls := 0 |} no_queues
              [Some [("A", "f0")]] [Some [("A", "f1")]]
              [[Some [("A", "f2")]]]
              (IOError "missing") [()]
              eq_refl eq_refl eq_refl eq_refl eq_refl)
    as (ep' & Hstep & Hrest & _).
  exists ep'. by split.
Defined.



(** ** The fetcher threads *)

Lemma single_fetcher_move {Sample} (load : window → result Sample) w
    (q : Queues Sample) bs :
  fetchers_alive q = [true] → names_queue q = NamesBatch <$> bs →
  let k := if bool_decide (w = O) then (1 `min` length bs)%nat else O in
  let q' := default q (threaded_fetch_iter load w q) in
  names_queue q' = NamesBatch <$> drop k bs
  ∧ data_queue q' = data_queue q ++ (fetched_item load <$> take k bs)
  ∧ names_unfinished q' = (names_unfinished q - k)%nat
  ∧ fetchers_alive q' = [true].
Proof.
  intros Halive Hnames. unfold threaded_fetch_iter. rewrite Halive, Hnames.
  destruct w as [|w]; simpl.
  - destruct bs as [|b bs]; simpl.
    + rewrite ?app_nil_r, ?Nat.sub_0_r. by repeat split.
    + rewrite ?drop_0, ?take_0. unfold fetched_item.
      repeat split; try done; lia.
  - rewrite ?drop_0, ?take_0, ?app_nil_r, ?Nat.sub_0_r. by repeat split.
Qed.

(** X22: with a single fetcher, alive, and a names queue of batches only,
    after any moves of the fetcher the data queue has grown by the fetched
    items of the first [k] batches of the names queue, in the order in which
    they were queued, a captured exception standing for a failed fetch; the
    names queue holds the other batches and [k] tasks are finished, [k] the
    number of moves or of queued batches, whichever is smaller; the fetcher
    is still alive. *)
Theorem single_fetcher_fifo {Sample} (load : window → result Sample) ws
    (q : Queues Sample) bs :
  fetchers_alive q = [true] → names_queue q = NamesBatch <$> bs →
  let k := (length (filter (λ w, w = O) ws) `min` length bs)%nat in
  let q' := run_fetchers load ws q in
  names_queue q' = NamesBatch <$> drop k bs
  ∧ data_queue q' = data_queue q ++ (fetched_item load <$> take k bs)
  ∧ names_unfinished q' = (names_unfinished q - k)%nat
  ∧ fetchers_alive q' = [true].
Proof.
  revert q bs. induction ws as [|w ws IH]; intros q bs Halive Hnames k q'.
  - subst k q'. simpl. rewrite ?drop_0, ?take_0, ?app_nil_r, ?Nat.sub_0_r.
    by repeat split.
  - destruct (single_fetcher_move load w q bs Halive Hnames)
      as (Hn1 & Hd1 & Hu1 & Ha1).
    set (k1 := if bool_decide (w = O) then (1 `min` length bs)%nat else O) in *.
    set (q1 := default q (threaded_fetch_iter load w q)) in *.
    destruct (IH q1 (drop k1 bs) Ha1 Hn1) as (Hn & Hd & Hu & Ha).
    subst q'. unfold run_fetchers in *. cbn [foldl]. fold q1.
    assert (Hk : k = (k1 + length (filter (λ w, w = O) ws)
                             `min` length (drop k1 bs))%nat).
    { subst k k1. rewrite length_drop. case_bool_decide as Hw.
      - rewrite filter_cons_True by done. simpl length. lia.
      - rewrite filter_cons_False by done. lia. }
    rewrite Hn, Hd, Hu, Ha, Hd1, Hu1, Hk.
    rewrite drop_drop, <- app_assoc, <- fmap_app.
    assert (Hk1 : (k1 ≤ length bs)%nat).
    { subst k1. case_bool_decide; lia. }
    repeat split; try done.
    + by rewrite take_take_drop.
    + lia.
Qed.

Lemma single_fetcher_fifo_witness :
  data_queue
    (run_fetchers load_missing_f0 [O; 3%nat; O; O]
       {| names_queue := [NamesBatch [Some [("A", "f1")]];
                          NamesBatch [Some [("A", "f0")]]];
          names_unfinished := 2; data_queue := [];
          fetchers_alive := [true] |})
  = [DataBatch [()]; ExcInfo (IOError "missing")].
Proof.
  destruct (single_fetcher_fifo load_missing_f0 [O; 3%nat; O; O]
              {| names_queue := [NamesBatch [Some [("A", "f1")]];
                                 NamesBatch [Some [("A", "f0")]]];
                 names_unfinished := 2; data_queue := [];
                 fetchers_alive := [true] |}
              [[Some [("A", "f1")]]; [Some [("A", "f0")]]] eq_refl eq_refl)
    as (_ & Hdata & _).
  rewrite Hdata. reflexivity.
Defined.

Lemma count_alive_insert_false (alive : list bool) w :
  alive !! w = Some true →
  S (sum_list ((λ a : bool, if a then 1%nat else 0%nat)
                 <$> <[w := false]> alive))
  = sum_list ((λ a : bool, if a then 1%nat else 0%nat) <$> alive).
Proof.
  revert w. induction alive as [|a alive IH]; intros w Hw; [done|].
  destruct w as [|w].
  - injection Hw as ->. simpl. lia.
  - pose proof (IH w Hw) as IHw.
    destruct a; [exact (f_equal S IHw)|exact IHw].
Qed.

Lemma fetcher_move_counts {Sample} (load : window → result Sample) w
    (q : Queues Sample) :
  let q' := default q (threaded_fetch_iter load w q) in
  (count_alive q' + count_sentinels q = count_alive q + count_sentinels q')%nat.
Proof.
  unfold threaded_fetch_iter.
  destruct (fetchers_alive q !! w) as [[|]|] eqn:Hw; [|done|done].
  destruct (names_queue q) as [|[b|] rest] eqn:Hq; [done| |];
    cbn [default]; cbv zeta.
  - unfold count_alive, count_sentinels. cbn [names_queue fetchers_alive].
    rewrite Hq. reflexivity.
  - set (q' := {| names_queue := rest;
                  names_unfinished := pred (names_unfinished q);
                  data_queue := data_queue q;
                  fetchers_alive := <[w := false]> (fetchers_alive q) |}).
    assert (Hs : count_sentinels q = S (count_sentinels q')).
    { unfold count_sentinels. rewrite Hq. reflexivity. }
    assert (Ha : count_alive q = S (count_alive q')).
    { unfold count_alive. symmetry. by apply count_alive_insert_false. }
    unfold id. lia.
Qed.

(** X23: every move of a fetcher keeps the number of fetchers alive minus
    the number of sentinels on the names queue; [finish] puts one sentinel
    per fetcher, so when all fetchers were alive and no sentinel was queued,
    after any moves as many fetchers are alive as sentinels are left, and
    all have ended once the names queue is empty. *)
Theorem sentinels_stop_fetchers {Sample} (load : window → result Sample)
    ws (q : Queues Sample) :
  (count_alive (run_fetchers load ws q) + count_sentinels q
   = count_alive q + count_sentinels (run_fetchers load ws q))%nat
  ∧ (count_alive q = length (fetchers_alive q) → count_sentinels q = O →
     let q' := run_fetchers load ws (finish_put_sentinels q) in
     count_alive q' = count_sentinels q'
     ∧ (names_queue q' = [] → forallb negb (fetchers_alive q') = true)).
Proof.
  assert (Hinv : ∀ ws (q : Queues Sample),
    (count_alive (run_fetchers load ws q) + count_sentinels q
     = count_alive q + count_sentinels (run_fetchers load ws q))%nat).
  { clear ws q. intros ws. induction ws as [|w ws IH]; intros q; [done|].
    unfold run_fetchers in *. cbn [foldl].
    pose proof (fetcher_move_counts load w q) as Hmove. cbv zeta in Hmove.
    pose proof (IH (default q (threaded_fetch_iter load w q))). lia. }
  split; [apply Hinv|].
  intros Hall Hnone q'.
  pose proof (Hinv ws (finish_put_sentinels q)) as Hfin. fold q' in Hfin.
  assert (Hput : count_sentinels (finish_put_sentinels q)
                 = length (fetchers_alive q)).
  { unfold count_sentinels in *. simpl. rewrite fmap_app, sum_list_with_app, Hnone.
    generalize (length (fetchers_alive q)). intros n.
    induction n as [|n IH]; [done|]. exact (f_equal S IH). }
  assert (Halive : count_alive (finish_put_sentinels q)
                   = length (fetchers_alive q)) by exact Hall.
  split; [lia|].
  intros Hempty.
  assert (Hzero : count_alive q' = O).
  { assert (count_sentinels q' = O) by (unfold count_sentinels; by rewrite Hempty).
    lia. }
  unfold count_alive in Hzero.
  induction (fetchers_alive q') as [|[|] alive IH]; simpl in *; try done.
  by apply IH.
Qed.

Lemma sentinels_stop_fetchers_witness :
  forallb negb
    (fetchers_alive
       (run_fetchers (λ _, Ok ()) [O; 1%nat; O; 1%nat]
          (finish_put_sentinels
             {| names_queue := [NamesBatch [Some [("A", "f1")]]];
                names_unfinished := 1; data_queue := [];
                fetchers_alive := [true; true] |}))) = true.
Proof.
  destruct (sentinels_stop_fetchers (λ _, Ok ()) [O; 1%nat; O; 1%nat]
              {| names_queue := [NamesBatch [Some [("A", "f1")]]];
                 names_unfinished := 1; data_queue := ([] : list (data_item unit));
                 fetchers_alive := [true; true] |})
    as [_ Hfinish].
  destruct (Hfinish eq_refl eq_refl) as [_ Hdead].
  by apply Hdead.
Defined.

(** X24: the void label that [get_void_labels] returns is the value the
    mapping gives to every void label it has an entry for, with or without
    [GTclasses], and [nclasses] counts it as one class more than
    [non_void_nclasses]; a class with an empty [_void_labels] has no void
    label and [nclasses = non_void_nclasses]. *)
Theorem void_label_is_void_image set_iter cls nvc voids
    (mapping : gmap Z Z) :
  non_void_nclasses cls = Some nvc → _void_labels cls = Some voids →
  _get_mapping set_iter cls = Ok mapping →
  ∃ vl, get_void_labels cls = Ok vl
    ∧ nclasses cls = Ok (nvc + Z.of_nat (length vl))
    ∧ (voids = [] ↔ vl = [])
    ∧ (∀ l v, l ∈ voids → mapping !! l = Some v → vl = [v]).
Proof.
  destruct cls as [n vs [gt|]]; cbn [non_void_nclasses _void_labels];
    intros [= ->] [= ->] Hmap.
  - destruct (get_mapping_explicit_lookup set_iter nvc voids gt)
      as (mapping' & Hmap' & Hlook).
    change (explicit_attrs nvc voids gt) with
      {| non_void_nclasses := Some nvc; _void_labels := Some voids;
         GTclasses := Some gt |} in Hmap'.
    rewrite Hmap in Hmap'. injection Hmap' as <-.
    unfold get_void_labels, nclasses. cbn [non_void_nclasses _void_labels].
    destruct voids as [|v0 voids].
    + exists []. cbn. rewrite Z.add_0_r. repeat split; try done.
      intros l v Hl. by apply elem_of_nil in Hl.
    + exists [nvc]. cbn. repeat split; try done.
      intros l v Hl. rewrite Hlook, bool_decide_eq_true_2 by done.
      by intros [= <-].
  - change {| non_void_nclasses := Some nvc; _void_labels := Some voids;
              GTclasses := None |} with (implicit_attrs nvc voids) in Hmap.
    rewrite get_mapping_implicit_eq in Hmap. injection Hmap as <-.
    unfold get_void_labels, nclasses. cbn [non_void_nclasses _void_labels].
    destruct voids as [|v0 voids].
    + exists []. cbn. rewrite Z.add_0_r. repeat split; try done.
      intros l v Hl. by apply elem_of_nil in Hl.
    + exists [nvc]. cbn [getattr mbind result_bind length].
      repeat split; try done.
      intros l v Hl Hv.
      pose proof (walk_labels_elem_of _ _ _ _ _ _ Hv) as Hin.
      rewrite (walk_void_lookup _ _ _ _ _ Hin Hl) in Hv.
      by injection Hv as <-.
Qed.

Lemma void_label_is_void_image_witness :
  get_void_labels (explicit_attrs 5 [2; 99] [0; 2; 5; 9; 11; 12; 99])
  = Ok [5]
  ∧ nclasses (explicit_attrs 5 [2; 99] [0; 2; 5; 9; 11; 12; 99]) = Ok 6.
Proof.
  destruct (void_label_is_void_image set_difference_sorted
              (explicit_attrs 5 [2; 99] [0; 2; 5; 9; 11; 12; 99]) 5 [2; 99]
              docstring_mapping eq_refl eq_refl)
    as (vl & Hvl & Hn & _ & Himg).
  { vm_compute. reflexivity. }
  assert (vl = [5]) as ->.
  { apply (Himg 2); [set_solver|reflexivity]. }
  by split.
Defined.
